(** * pandaverse: scripts/download_dictionary.py

    A shallow embedding of the dictionary converter: the frequency table
    built from the ranked word pages ([download_frequency_lists]) and the
    CC-CEDICT line parser with its record merge ([parse_cedict]).

    Python [str] values are sequences of Unicode code points; they are
    modelled as [list N].  The two mappings of the script (the frequency
    map and the dictionary) are Python dicts used as finite maps and are
    modelled as [gmap]s keyed by text. *)

From Stdlib Require Import ZArith NArith List Bool Lia.
From Stdlib Require Ascii String.
From stdpp Require Import gmap list fin_maps strings.

Local Open Scope Z_scope.

(** ** Text *)

Abbreviation char := N (only parsing).
Abbreviation str := (list N) (only parsing).

(** The characters the script names. *)
Abbreviation c_newline := 10%N.
Abbreviation c_space := 32%N.
Abbreviation c_hash := 35%N.
Abbreviation c_slash := 47%N.
Abbreviation c_lt := 60%N.
Abbreviation c_gt := 62%N.
Abbreviation c_open := 91%N.
Abbreviation c_close := 93%N.

(** An ASCII literal as a sequence of code points. *)
Definition lit (s : String.string) : str :=
  map Ascii.N_of_ascii (String.list_ascii_of_string s).

Module Py.

(** [str.isspace] on one code point: the characters CPython treats as
    whitespace in [str.strip()] and [str.split()]. *)
Definition isspace (c : char) : bool :=
  ((0x09 <=? c) && (c <=? 0x0D) || (0x1C <=? c) && (c <=? 0x20)
   || (c =? 0x85) || (c =? 0xA0) || (c =? 0x1680)
   || (0x2000 <=? c) && (c <=? 0x200A)
   || (c =? 0x2028) || (c =? 0x2029) || (c =? 0x202F)
   || (c =? 0x205F) || (c =? 0x3000))%N.

Fixpoint lstrip_by (p : char -> bool) (s : str) : str :=
  match s with
  | c :: s' => if p c then lstrip_by p s' else s
  | [] => []
  end.

Definition strip_by (p : char -> bool) (s : str) : str :=
  rev (lstrip_by p (rev (lstrip_by p s))).

(** [s.strip()] *)
Definition strip (s : str) : str := strip_by isspace s.

(** [s.strip(chars)] *)
Definition strip_chars (chars : str) (s : str) : str :=
  strip_by (fun c => existsb (N.eqb c) chars) s.

(** [s.startswith(c)] for a one-character prefix. *)
Definition startswith (c : char) (s : str) : bool :=
  match s with
  | c' :: _ => (c' =? c)%N
  | [] => false
  end.

(** The text before the first [sep], and the text after it when there is
    one. *)
Fixpoint cut (sep : char) (s : str) : str * option str :=
  match s with
  | [] => ([], None)
  | c :: s' =>
      if (c =? sep)%N then ([], Some s')
      else let '(h, t) := cut sep s' in (c :: h, t)
  end.

(** [s.split(sep, 1)] for a one-character separator. *)
Definition split1 (sep : char) (s : str) : list str :=
  match cut sep s with
  | (h, Some t) => [h; t]
  | (h, None) => [h]
  end.

(** [s.split(sep)] for a one-character separator. *)
Fixpoint split (sep : char) (s : str) : list str :=
  match s with
  | [] => [[]]
  | c :: s' =>
      if (c =? sep)%N then [] :: split sep s'
      else match split sep s' with
           | p :: ps => (c :: p) :: ps
           | [] => [[c]]
           end
  end.

(** [s.split()]: the maximal runs of non-whitespace characters.  [cur]
    holds the run being read, last character first. *)
Fixpoint words_from (cur : str) (s : str) : list str :=
  match s with
  | [] => match cur with [] => [] | _ => [rev cur] end
  | c :: s' =>
      if isspace c then
        match cur with
        | [] => words_from [] s'
        | _ => rev cur :: words_from [] s'
        end
      else words_from (c :: cur) s'
  end.

Definition words (s : str) : list str := words_from [] s.

(** Truthiness of an optional integer ([None] and [0] are false) and the
    value of [a or b]. *)
Definition truthy (a : option Z) : bool :=
  match a with
  | Some z => negb (z =? 0)
  | None => false
  end.

Definition or_ (a b : option Z) : option Z := if truthy a then a else b.

End Py.

(** ** Dictionary lines *)

(** The values one line yields (lines 188-199 of the script). *)
Record Candidate := {
  cand_traditional : str;
  cand_simplified : str;
  cand_pinyin : str;
  cand_definitions : list str
}.

(** Lines 174-199: what the loop body of [parse_cedict] reads from one
    line; [None] is a [continue]. *)
Definition parse_line (line : str) : option Candidate :=
  if Py.startswith c_hash line then None else
  match Py.split1 c_open line with
  | parts0 :: parts1 :: _ =>
      match Py.words (Py.strip parts0) with
      | traditional :: simplified :: _ =>
          match Py.split1 c_close parts1 with
          | pinyin_def0 :: pinyin_def1 :: _ =>
              let pinyin := Py.strip pinyin_def0 in
              let definitions :=
                map Py.strip
                  (filter (fun d => Py.strip d ≠ [])
                     (Py.split c_slash
                        (Py.strip_chars [c_slash] pinyin_def1))) in
              Some {| cand_traditional := traditional;
                      cand_simplified := simplified;
                      cand_pinyin := pinyin;
                      cand_definitions := definitions |}
          | _ => None
          end
      | _ => None
      end
  | _ => None
  end.

(** ** Dictionary records *)

(** The object stored under each key of the dictionary (lines 223-229). *)
Record Entry := {
  traditional : str;
  simplified : str;
  pinyin : str;
  definitions : list str;
  frequency : option Z
}.

(** What [json.dump] sees of a record: its items, in insertion order. *)
Inductive json :=
| JString (s : str)
| JArray (l : list str)
| JNumber (z : Z)
| JNull.

Definition items (e : Entry) : list (string * json) :=
  [("traditional", JString (traditional e));
   ("simplified", JString (simplified e));
   ("pinyin", JString (pinyin e));
   ("definitions", JArray (definitions e));
   ("frequency",
    match frequency e with Some z => JNumber z | None => JNull end)].

(** Line 203:
    [frequency_map.get(traditional) or frequency_map.get(simplified)]. *)
Definition lookup_frequency (frequency_map : gmap str Z)
    (traditional simplified : str) : option Z :=
  Py.or_ (frequency_map !! traditional) (frequency_map !! simplified).

(** Line 219: [frequency and (existing['frequency'] is None or
    frequency > existing['frequency'])]. *)
Definition takes_frequency (frequency stored : option Z) : bool :=
  Py.truthy frequency &&
  match frequency, stored with
  | _, None => true
  | Some f, Some old => old <? f
  | None, Some _ => false
  end.

(** Lines 208-220: the in-place update of the record already stored. *)
Definition merge_existing (existing : Entry) (c : Candidate)
    (freq : option Z) : Entry :=
  {| traditional := traditional existing;
     simplified := simplified existing;
     pinyin :=
       if bool_decide (cand_pinyin c ≠ pinyin existing)
       then pinyin existing ++ lit "; " ++ cand_pinyin c
       else pinyin existing;
     definitions :=
       (definitions existing ++ [lit "[" ++ cand_pinyin c ++ lit "]"])
       ++ cand_definitions c;
     frequency :=
       if takes_frequency freq (frequency existing) then freq
       else frequency existing |}.

(** Lines 223-229: the record of a key seen for the first time. *)
Definition new_entry (c : Candidate) (freq : option Z) : Entry :=
  {| traditional := cand_traditional c;
     simplified := cand_simplified c;
     pinyin := cand_pinyin c;
     definitions := cand_definitions c;
     frequency := freq |}.

(** Lines 201-229: one candidate folded into the dictionary. *)
Definition merge_candidate (frequency_map : gmap str Z)
    (dictionary : gmap str Entry) (c : Candidate) : gmap str Entry :=
  let freq :=
    lookup_frequency frequency_map (cand_traditional c) (cand_simplified c) in
  match dictionary !! cand_traditional c with
  | Some existing =>
      <[cand_traditional c := merge_existing existing c freq]> dictionary
  | None =>
      <[cand_traditional c := new_entry c freq]> dictionary
  end.

(** Line 238: [max_entries and count >= max_entries]. *)
Definition cap_reached (max_entries : option Z) (count : Z) : bool :=
  match max_entries with
  | Some m => negb (m =? 0) && (m <=? count)
  | None => false
  end.

(** The [for line in f] loop of [parse_cedict], from a given dictionary and
    count.  No operation of the body raises on text and integers, so the
    [except] branch is never taken. *)
Fixpoint parse_loop (frequency_map : gmap str Z) (max_entries : option Z)
    (lines : list str) (dictionary : gmap str Entry) (count : Z)
    : gmap str Entry :=
  match lines with
  | [] => dictionary
  | line :: rest =>
      match parse_line line with
      | None => parse_loop frequency_map max_entries rest dictionary count
      | Some c =>
          let dictionary := merge_candidate frequency_map dictionary c in
          let count := count + 1 in
          if cap_reached max_entries count then dictionary
          else parse_loop frequency_map max_entries rest dictionary count
      end
  end.

(** [parse_cedict(filename, frequency_map, max_entries)], on the lines read
    from the file. *)
Definition parse_cedict (lines : list str) (frequency_map : gmap str Z)
    (max_entries : option Z) : gmap str Entry :=
  parse_loop frequency_map max_entries lines ∅ 0.

(** ** Frequency table *)

(** [re.sub(r'<[^>]+>', '', text)]: scanning from the left, a [<] followed
    by at least one character other than [>] and then a [>] is removed with
    everything up to that [>]; [skip] counts the characters of the current
    match still to drop. *)
Fixpoint sub_tags (skip : nat) (text : str) : str :=
  match text with
  | [] => []
  | c :: rest =>
      match skip with
      | S k => sub_tags k rest
      | O =>
          if (c =? c_lt)%N then
            match Py.cut c_gt rest with
            | (b :: body, Some _) => sub_tags (S (length (b :: body))) rest
            | _ => c :: sub_tags O rest
            end
          else c :: sub_tags O rest
      end
  end.

(** Lines 83-84. *)
Definition strip_tags (text : str) : str := Py.strip (sub_tags O text).

(** Line 108. *)
Definition rank_of (i row_count : Z) : Z := i * 1000 + row_count.

(** Lines 124 and 126. *)
Definition score_of (rank : Z) : Z := 11000 - rank.

(** Lines 123-126: a word is stored only when it has no score yet. *)
Definition record_word (frequency_map : gmap str Z) (w : str) (rank : Z)
    : gmap str Z :=
  if bool_decide (w ≠ []) && bool_decide (frequency_map !! w = None)
  then <[w := score_of rank]> frequency_map
  else frequency_map.

(** Lines 74-126: one table row of page [i]; [cells] are the [<td>]
    contents found in the row.  The state is the map and [row_count]. *)
Definition process_row (i : Z) (st : gmap str Z * Z) (cells : list str)
    : gmap str Z * Z :=
  let '(frequency_map, row_count) := st in
  match cells with
  | cell0 :: cell1 :: _ =>
      let row_count := row_count + 1 in
      let traditional := strip_tags cell0 in
      let simplified := strip_tags cell1 in
      if bool_decide (traditional = []) || bool_decide (simplified = [])
      then (frequency_map, row_count)
      else
        let rank := rank_of i row_count in
        let trad := Py.strip traditional in
        let simp := Py.strip simplified in
        let frequency_map := record_word frequency_map trad rank in
        let frequency_map := record_word frequency_map simp rank in
        (frequency_map, row_count)
  | _ => (frequency_map, row_count)
  end.

(** One iteration of the loop over [FREQUENCY_URLS]: a page that could not
    be fetched or read ([None]) leaves the map as it is. *)
Definition process_page (i : Z) (frequency_map : gmap str Z)
    (page : option (list (list str))) : gmap str Z :=
  match page with
  | Some rows => fst (fold_left (process_row i) rows (frequency_map, 0))
  | None => frequency_map
  end.

Fixpoint process_pages (i : Z) (frequency_map : gmap str Z)
    (pages : list (option (list (list str)))) : gmap str Z :=
  match pages with
  | [] => frequency_map
  | page :: rest =>
      process_pages (i + 1) (process_page i frequency_map page) rest
  end.

(** [download_frequency_lists()], on the rows scraped from the pages of
    [FREQUENCY_URLS], in order. *)
Definition download_frequency_lists
    (pages : list (option (list (list str)))) : gmap str Z :=
  process_pages 0 ∅ pages.

(** ** Vocabulary of the statements *)

(** The order on stored frequencies: unset is below every score. *)
Definition frequency_le (a b : option Z) : Prop :=
  match a, b with
  | None, _ => True
  | Some x, Some y => x <= y
  | Some _, None => False
  end.

(** What a record keeps through one more candidate. *)
Definition extends (r r' : Entry) : Prop :=
  traditional r' = traditional r /\ simplified r' = simplified r /\
  frequency_le (frequency r) (frequency r').

(** The shape every stored record has: it is stored under its own
    traditional text, and its object has the five fields of line 223. *)
Definition well_formed (d : gmap str Entry) : Prop :=
  forall k r, d !! k = Some r ->
    traditional r = k /\
    (items r).*1 =
      ["traditional"; "simplified"; "pinyin"; "definitions"; "frequency"].

(** A line with no [[], or with no []] after its first [[], or whose text
    before the first [[] has fewer than two whitespace-delimited tokens. *)
Inductive malformed (line : str) : Prop :=
| no_opening :
    c_open ∉ line -> malformed line
| no_closing (h t : str) :
    line = h ++ c_open :: t -> c_open ∉ h -> c_close ∉ t -> malformed line
| short_head (h t : str) :
    line = h ++ c_open :: t -> c_open ∉ h -> (length (Py.words h) < 2)%nat ->
    malformed line.

(** Rows that advance [row_count]: those with at least two cells. *)
Definition counted (cells : list str) : bool :=
  bool_decide (2 <= length cells)%nat.

Fixpoint count_rows (rows : list (list str)) : Z :=
  match rows with
  | [] => 0
  | cells :: rest => (if counted cells then 1 else 0) + count_rows rest
  end.

(** The 1-based position of row [j] within its page. *)
Definition position_in_page (rows : list (list str)) (j : nat) : Z :=
  count_rows (take (S j) rows).

(** The two words of a row that is not skipped. *)
Definition row_words (cells : list str) : option (str * str) :=
  match cells with
  | cell0 :: cell1 :: _ =>
      if bool_decide (strip_tags cell0 = [])
         || bool_decide (strip_tags cell1 = [])
      then None
      else Some (Py.strip (strip_tags cell0), Py.strip (strip_tags cell1))
  | _ => None
  end.

(** Row [cells] is accepted and carries the word [w]. *)
Definition row_has (w : str) (cells : list str) : bool :=
  match row_words cells with
  | Some (trad, simp) => bool_decide (w ≠ [] /\ (w = trad \/ w = simp))
  | None => false
  end.

(** The score the rows of page [i] give [w], read from [row_count] on. *)
Fixpoint page_score (i : Z) (w : str) (rows : list (list str))
    (row_count : Z) : option Z :=
  match rows with
  | [] => None
  | cells :: rest =>
      if row_has w cells then Some (score_of (rank_of i (row_count + 1)))
      else page_score i w rest (row_count + (if counted cells then 1 else 0))
  end.

(** The score the pages give [w], the first of them being page [i]. *)
Fixpoint pages_score (i : Z) (w : str)
    (pages : list (option (list (list str)))) : option Z :=
  match pages with
  | [] => None
  | page :: rest =>
      match from_option (fun rows => page_score i w rows 0) None page with
      | Some s => Some s
      | None => pages_score (i + 1) w rest
      end
  end.

(** Word [w] is on row [j] of page [i], a row that is not skipped. *)
Definition accepted_at (pages : list (option (list (list str)))) (w : str)
    (i j : nat) (rows : list (list str)) : Prop :=
  pages !! i = Some (Some rows) /\
  exists cells, rows !! j = Some cells /\ row_has w cells = true.

(** ... and on no earlier row of the pages. *)
Definition first_accepted_at (pages : list (option (list (list str))))
    (w : str) (i j : nat) (rows : list (list str)) : Prop :=
  accepted_at pages w i j rows /\
  forall i' j' rows', accepted_at pages w i' j' rows' ->
    (i < i')%nat \/ (i = i' /\ (j <= j')%nat).

(** A line in the CC-CEDICT layout,
    [Traditional Simplified [pinyin] /gloss/.../gloss/], with its newline. *)
Definition cedict_line (trad simp pin : str) (glosses : list str) : str :=
  trad ++ [c_space] ++ simp ++ [c_space; c_open] ++ pin
  ++ [c_close; c_space; c_slash]
  ++ concat (map (fun g => g ++ [c_slash]) glosses) ++ [c_newline].

(** A headword: non-empty, without whitespace and without [[]. *)
Definition headword (w : str) : Prop :=
  w ≠ [] /\ Forall (fun c => Py.isspace c = false /\ c ≠ c_open) w.

(** A gloss: non-empty, without [/], with no whitespace at either end. *)
Definition gloss (g : str) : Prop :=
  g ≠ [] /\ (c_slash ∉ g) /\ Py.strip g = g.

(** The candidates of the accepted lines, in input order. *)
Definition accepted (lines : list str) : list Candidate :=
  omap parse_line lines.

(** Line 203, for the words of a candidate. *)
Definition candidate_frequency (frequency_map : gmap str Z) (c : Candidate)
    : option Z :=
  lookup_frequency frequency_map (cand_traditional c) (cand_simplified c).

(** Line 215: the element put before the glosses of a merged candidate. *)
Definition marker (c : Candidate) : str :=
  lit "[" ++ cand_pinyin c ++ lit "]".

(** A record after the candidates [cs] were merged into it, in order. *)
Definition merge_all (frequency_map : gmap str Z) (e : Entry)
    (cs : list Candidate) : Entry :=
  fold_left
    (fun e c => merge_existing e c (candidate_frequency frequency_map c))
    cs e.

(** The record the candidates [cs], all of one key, give: none for no
    candidate, else the first one's record with the others merged in. *)
Definition entry_of (frequency_map : gmap str Z) (cs : list Candidate)
    : option Entry :=
  match cs with
  | [] => None
  | c :: cs' =>
      Some (merge_all frequency_map
              (new_entry c (candidate_frequency frequency_map c)) cs')
  end.

(** The candidates whose traditional form is [k]. *)
Definition with_key (k : str) (cs : list Candidate) : list Candidate :=
  filter (fun c => cand_traditional c = k) cs.

(** How many candidates the loop merges before line 238 stops it. *)
Definition entries_read (max_entries : option Z) (n : nat) : nat :=
  match max_entries with
  | Some m => if m =? 0 then n else Nat.min (Z.to_nat (Z.max 1 m)) n
  | None => n
  end.

(** Line 29. *)
Definition MAX_ENTRIES : option Z := None.

(** Lines 278 and 287 of [main]: the dictionary handed to [save_json],
    from the scraped pages and the lines of the downloaded file. *)
Definition main_dictionary (pages : list (option (list (list str))))
    (lines : list str) : gmap str Entry :=
  parse_cedict lines (download_frequency_lists pages) MAX_ENTRIES.

(** The glosses in a text: its pieces between [/], stripped, without the
    blank ones (line 199 without its [strip('/')]). *)
Definition glosses_of (u : str) : list str :=
  map Py.strip (filter (fun d => Py.strip d ≠ []) (Py.split c_slash u)).

(** Pages as the script expects them: at most ten of them (the length of
    [FREQUENCY_URLS]), each with at most 1000 rows of two cells or more. *)
Definition regular_pages (pages : list (option (list (list str)))) : Prop :=
  (length pages <= 10)%nat /\
  Forall (fun page => from_option (fun rows => count_rows rows <= 1000)
                        True page) pages.

(** A tag, as [strip_tags] sees one: [<], then at least one character, none
    of them [>], then [>]. *)
Definition tag (body : str) : str := c_lt :: body ++ [c_gt].

Definition tag_body (body : str) : Prop := body ≠ [] /\ c_gt ∉ body.

(** Texts in which the substitution of lines 83-84 finds nothing: every
    [<] is followed at once by [>], or by no [>] at all. *)
Inductive tag_free : str -> Prop :=
| tag_free_nil : tag_free []
| tag_free_other c s : c ≠ c_lt -> tag_free s -> tag_free (c :: s)
| tag_free_empty s : tag_free s -> tag_free (c_lt :: c_gt :: s)
| tag_free_open s : c_gt ∉ s -> tag_free (c_lt :: s).

(** ** Sample inputs *)

Definition zhongguo1 : str :=
  [0x4E2D; 0x570B; 32; 0x4E2D; 0x56FD; 32]%N
  ++ lit "[Zhong1 guo2] /China/Middle Kingdom/" ++ [c_newline].

Definition zhongguo2 : str :=
  [0x4E2D; 0x570B; 32; 0x4E2D; 0x56FD; 32]%N
  ++ lit "[Zhong1guo2] /(old) Central Plain/" ++ [c_newline].

Definition sample_pages : list (option (list (list str))) :=
  [ Some [ [];
           [lit "<a href=x>" ++ [0x7684%N] ++ lit "</a>"; [0x7684%N]; lit "de"];
           [[0x4E00%N]; [0x4E00%N]] ];
    Some [ [[0x7684%N]; [0x7684%N]];
           [lit " " ++ [0x662F%N]; [0x662F%N]] ] ].

(** ** Examples *)

Example parse_line_zhongguo1 :
  parse_line zhongguo1 =
  Some {| cand_traditional := [0x4E2D; 0x570B]%N;
          cand_simplified := [0x4E2D; 0x56FD]%N;
          cand_pinyin := lit "Zhong1 guo2";
          cand_definitions := [lit "China"; lit "Middle Kingdom"] |}.
Proof. vm_compute. reflexivity. Qed.

Example parse_cedict_zhongguo :
  parse_cedict [zhongguo1; zhongguo2] ∅ None !! [0x4E2D; 0x570B]%N =
  Some {| traditional := [0x4E2D; 0x570B]%N;
          simplified := [0x4E2D; 0x56FD]%N;
          pinyin := lit "Zhong1 guo2; Zhong1guo2";
          definitions := [lit "China"; lit "Middle Kingdom";
                          lit "[Zhong1guo2]"; lit "(old) Central Plain"];
          frequency := None |}.
Proof. vm_compute. reflexivity. Qed.

(** The two lines of the end-to-end example, as the last lines of a file
    that does not end with a newline would be read. *)
Example parse_cedict_zhongguo_bare :
  parse_cedict
    [[0x4E2D; 0x570B; 32; 0x4E2D; 0x56FD; 32]%N
     ++ lit "[Zhong1 guo2] /China/Middle Kingdom/";
     [0x4E2D; 0x570B; 32; 0x4E2D; 0x56FD; 32]%N
     ++ lit "[Zhong1guo2] /(old) Central Plain/"] ∅ None
  = parse_cedict [zhongguo1; zhongguo2] ∅ None.
Proof. vm_compute. reflexivity. Qed.

Example zhongguo1_layout :
  zhongguo1 =
  cedict_line [0x4E2D; 0x570B]%N [0x4E2D; 0x56FD]%N (lit "Zhong1 guo2")
    [lit "China"; lit "Middle Kingdom"].
Proof. reflexivity. Qed.

Example strip_tags_ex :
  strip_tags (lit "<a href=x> de </a><>") = lit "de <>" /\
  strip_tags (lit " <b>x<i>y</i></b>< ") = lit "xy<".
Proof. vm_compute. split; reflexivity. Qed.

(** ** The loop of [parse_cedict] *)

Section Loop.

Variable frequency_map : gmap str Z.
Variable max_entries : option Z.

Lemma parse_loop_nil dictionary count :
  parse_loop frequency_map max_entries [] dictionary count = dictionary.
Proof. reflexivity. Qed.

Lemma parse_loop_skip line rest dictionary count :
  parse_line line = None ->
  parse_loop frequency_map max_entries (line :: rest) dictionary count =
  parse_loop frequency_map max_entries rest dictionary count.
Proof. intros Hnone. simpl. now rewrite Hnone. Qed.

Lemma parse_loop_accept line rest dictionary count c :
  parse_line line = Some c ->
  parse_loop frequency_map max_entries (line :: rest) dictionary count =
  if cap_reached max_entries (count + 1)
  then merge_candidate frequency_map dictionary c
  else parse_loop frequency_map max_entries rest
         (merge_candidate frequency_map dictionary c) (count + 1).
Proof. intros Hsome. simpl. now rewrite Hsome. Qed.

(** A property of the dictionary that every merge of a candidate
    satisfying [Q] preserves holds when the loop ends. *)
Lemma parse_loop_preserves (P : gmap str Entry -> Prop)
    (Q : Candidate -> Prop) :
  (forall d c, Q c -> P d -> P (merge_candidate frequency_map d c)) ->
  forall lines dictionary count,
    (forall line c, line ∈ lines -> parse_line line = Some c -> Q c) ->
    P dictionary ->
    P (parse_loop frequency_map max_entries lines dictionary count).
Proof.
  intros Hstep lines.
  induction lines as [|line rest IH]; intros d count HQ HP; [exact HP|].
  destruct (parse_line line) as [c|] eqn:Hline.
  - rewrite (parse_loop_accept _ _ _ _ _ Hline).
    assert (Hd : P (merge_candidate frequency_map d c)).
    { apply Hstep; [|exact HP]. apply (HQ line); [left|exact Hline]. }
    destruct (cap_reached max_entries (count + 1)); [exact Hd|].
    apply IH; [|exact Hd].
    intros l c' Hin. apply HQ. now right.
  - rewrite (parse_loop_skip _ _ _ _ Hline).
    apply IH; [|exact HP].
    intros l c' Hin. apply HQ. now right.
Qed.

End Loop.

(** ** One merge step *)

Section Merge.

Variable frequency_map : gmap str Z.

Lemma merge_candidate_new d c :
  d !! cand_traditional c = None ->
  merge_candidate frequency_map d c =
  <[cand_traditional c :=
      new_entry c (lookup_frequency frequency_map (cand_traditional c)
                     (cand_simplified c))]> d.
Proof. intros Hk. unfold merge_candidate. now rewrite Hk. Qed.

Lemma merge_candidate_existing d c existing :
  d !! cand_traditional c = Some existing ->
  merge_candidate frequency_map d c =
  <[cand_traditional c :=
      merge_existing existing c
        (lookup_frequency frequency_map (cand_traditional c)
           (cand_simplified c))]> d.
Proof. intros Hk. unfold merge_candidate. now rewrite Hk. Qed.

Lemma merge_candidate_other d c k :
  k ≠ cand_traditional c ->
  merge_candidate frequency_map d c !! k = d !! k.
Proof.
  intros Hne. unfold merge_candidate.
  destruct (d !! cand_traditional c); now rewrite lookup_insert_ne.
Qed.

Lemma merge_candidate_key d c :
  merge_candidate frequency_map d c !! cand_traditional c =
  Some (match d !! cand_traditional c with
        | Some existing =>
            merge_existing existing c
              (lookup_frequency frequency_map (cand_traditional c)
                 (cand_simplified c))
        | None =>
            new_entry c (lookup_frequency frequency_map (cand_traditional c)
                           (cand_simplified c))
        end).
Proof.
  unfold merge_candidate.
  destruct (d !! cand_traditional c); now rewrite lookup_insert_eq.
Qed.

End Merge.

(** ** Records under repeated merges *)

Lemma frequency_le_refl a : frequency_le a a.
Proof. destruct a; simpl; [lia|exact I]. Qed.

Lemma frequency_le_trans a b c :
  frequency_le a b -> frequency_le b c -> frequency_le a c.
Proof. destruct a, b, c; simpl; try tauto; lia. Qed.

Lemma takes_frequency_true freq stored :
  takes_frequency freq stored = true ->
  exists f, freq = Some f /\ f <> 0 /\
            match stored with Some old => old < f | None => True end.
Proof.
  unfold takes_frequency, Py.truthy.
  destruct freq as [f|]; [|discriminate].
  intros [Hnz Hgt]%andb_prop. exists f. split; [reflexivity|].
  split; [intros ->; discriminate|].
  destruct stored as [old|]; [|exact I]. now apply Z.ltb_lt.
Qed.

Lemma merge_existing_frequency_le existing c freq :
  frequency_le (frequency existing) (frequency (merge_existing existing c freq)).
Proof.
  simpl. destruct (takes_frequency freq (frequency existing)) eqn:Htake.
  - destruct (takes_frequency_true _ _ Htake) as (f & -> & _ & Hgt).
    destruct (frequency existing); simpl; [lia|exact I].
  - apply frequency_le_refl.
Qed.

Lemma extends_refl r : extends r r.
Proof. repeat split. apply frequency_le_refl. Qed.

Lemma extends_trans r1 r2 r3 : extends r1 r2 -> extends r2 r3 -> extends r1 r3.
Proof.
  intros (Ht & Hs & Hf) (Ht' & Hs' & Hf'). repeat split; try congruence.
  eapply frequency_le_trans; eassumption.
Qed.

Lemma merge_candidate_extends frequency_map d c k r :
  d !! k = Some r ->
  exists r', merge_candidate frequency_map d c !! k = Some r' /\ extends r r'.
Proof.
  intros Hk. destruct (decide (k = cand_traditional c)) as [->|Hne].
  - rewrite merge_candidate_key, Hk. eexists; split; [reflexivity|].
    repeat split. apply merge_existing_frequency_le.
  - rewrite merge_candidate_other by exact Hne.
    exists r. split; [exact Hk|apply extends_refl].
Qed.

Lemma parse_loop_extends frequency_map max_entries lines d count k r :
  d !! k = Some r ->
  exists r', parse_loop frequency_map max_entries lines d count !! k = Some r'
             /\ extends r r'.
Proof.
  intros Hk.
  apply (parse_loop_preserves frequency_map max_entries
           (fun d' => exists r', d' !! k = Some r' /\ extends r r')
           (fun _ => True)).
  - intros d' c _ (r1 & Hr1 & Hext).
    destruct (merge_candidate_extends frequency_map d' c k r1 Hr1)
      as (r2 & Hr2 & Hext2).
    exists r2. split; [exact Hr2|]. eapply extends_trans; eassumption.
  - intros; exact I.
  - exists r. split; [exact Hk|apply extends_refl].
Qed.

(** Two accepted lines with the same headword, read from an empty
    dictionary. *)
Lemma parse_cedict_same_key frequency_map max_entries line1 line2 c1 c2 :
  parse_line line1 = Some c1 ->
  parse_line line2 = Some c2 ->
  cand_traditional c2 = cand_traditional c1 ->
  cap_reached max_entries 1 = false ->
  parse_cedict [line1; line2] frequency_map max_entries !! cand_traditional c1
  = Some (merge_existing
            (new_entry c1 (lookup_frequency frequency_map
                             (cand_traditional c1) (cand_simplified c1)))
            c2
            (lookup_frequency frequency_map
               (cand_traditional c2) (cand_simplified c2))).
Proof.
  intros H1 H2 Hkey Hcap. unfold parse_cedict.
  rewrite (parse_loop_accept _ _ _ _ _ _ c1 H1).
  change (0 + 1) with 1. rewrite Hcap.
  rewrite (parse_loop_accept _ _ _ _ _ _ c2 H2).
  rewrite parse_loop_nil.
  assert (Hd : merge_candidate frequency_map
                 (merge_candidate frequency_map ∅ c1) c2
               !! cand_traditional c1
               = Some (merge_existing
                         (new_entry c1 (lookup_frequency frequency_map
                            (cand_traditional c1) (cand_simplified c1)))
                         c2
                         (lookup_frequency frequency_map
                            (cand_traditional c2) (cand_simplified c2)))).
  { rewrite <- Hkey at 1. rewrite merge_candidate_key.
    rewrite Hkey at 1. rewrite merge_candidate_key.
    rewrite lookup_empty. reflexivity. }
  destruct (cap_reached max_entries (1 + 1)); exact Hd.
Qed.

(** ** Properties of the merge *)

(** C1: two accepted lines with the same traditional key and different
    pronunciations, read in input order, give one record whose definitions
    are the first line's glosses, then the marker [[pinyin2]], then the
    second line's glosses, and whose pinyin is [pinyin1; pinyin2].  The
    second line is read: [max_entries] does not stop the loop after one
    entry. *)
Theorem same_key_different_pinyin frequency_map max_entries line1 line2 c1 c2 :
  parse_line line1 = Some c1 ->
  parse_line line2 = Some c2 ->
  cand_traditional c2 = cand_traditional c1 ->
  cand_pinyin c2 ≠ cand_pinyin c1 ->
  cap_reached max_entries 1 = false ->
  exists r,
    parse_cedict [line1; line2] frequency_map max_entries
      !! cand_traditional c1 = Some r /\
    definitions r =
      cand_definitions c1 ++ [lit "[" ++ cand_pinyin c2 ++ lit "]"]
      ++ cand_definitions c2 /\
    pinyin r = cand_pinyin c1 ++ lit "; " ++ cand_pinyin c2.
Proof.
  intros H1 H2 Hkey Hpin Hcap. eexists. split.
  - apply parse_cedict_same_key; eassumption.
  - split.
    + simpl. now rewrite <- app_assoc.
    + simpl. rewrite bool_decide_eq_true_2 by exact Hpin. reflexivity.
Qed.

Lemma same_key_different_pinyin_witness :
  exists r,
    parse_cedict [zhongguo1; zhongguo2] ∅ None !! [0x4E2D; 0x570B]%N = Some r /\
    definitions r = [lit "China"; lit "Middle Kingdom"; lit "[Zhong1guo2]";
                     lit "(old) Central Plain"] /\
    pinyin r = lit "Zhong1 guo2; Zhong1guo2".
Proof.
  refine (same_key_different_pinyin ∅ None zhongguo1 zhongguo2
            {| cand_traditional := [0x4E2D; 0x570B]%N;
               cand_simplified := [0x4E2D; 0x56FD]%N;
               cand_pinyin := lit "Zhong1 guo2";
               cand_definitions := [lit "China"; lit "Middle Kingdom"] |}
            {| cand_traditional := [0x4E2D; 0x570B]%N;
               cand_simplified := [0x4E2D; 0x56FD]%N;
               cand_pinyin := lit "Zhong1guo2";
               cand_definitions := [lit "(old) Central Plain"] |}
            _ _ _ _ _).
  - vm_compute. reflexivity.
  - vm_compute. reflexivity.
  - reflexivity.
  - vm_compute. discriminate.
  - reflexivity.
Defined.

(** C5: two accepted lines with the same traditional key and the same
    pronunciation give a record whose pinyin is that pronunciation, once,
    while its definitions still receive the marker and the second line's
    glosses.  The second line is read: [max_entries] does not stop the
    loop after one entry. *)
Theorem same_key_same_pinyin frequency_map max_entries line1 line2 c1 c2 :
  parse_line line1 = Some c1 ->
  parse_line line2 = Some c2 ->
  cand_traditional c2 = cand_traditional c1 ->
  cand_pinyin c2 = cand_pinyin c1 ->
  cap_reached max_entries 1 = false ->
  exists r,
    parse_cedict [line1; line2] frequency_map max_entries
      !! cand_traditional c1 = Some r /\
    pinyin r = cand_pinyin c1 /\
    definitions r =
      cand_definitions c1 ++ [lit "[" ++ cand_pinyin c1 ++ lit "]"]
      ++ cand_definitions c2.
Proof.
  intros H1 H2 Hkey Hpin Hcap. eexists. split.
  - apply parse_cedict_same_key; eassumption.
  - split.
    + simpl. rewrite bool_decide_eq_false_2; [reflexivity|]. now intros [].
    + simpl. now rewrite <- app_assoc, Hpin.
Qed.

Lemma same_key_same_pinyin_witness :
  exists r,
    parse_cedict [lit "A a [x1] /one/"; lit "A b [x1] /two/three/"] ∅ None
      !! lit "A" = Some r /\
    pinyin r = lit "x1" /\
    definitions r = [lit "one"; lit "[x1]"; lit "two"; lit "three"].
Proof.
  refine (same_key_same_pinyin ∅ None
            (lit "A a [x1] /one/") (lit "A b [x1] /two/three/")
            {| cand_traditional := lit "A"; cand_simplified := lit "a";
               cand_pinyin := lit "x1"; cand_definitions := [lit "one"] |}
            {| cand_traditional := lit "A"; cand_simplified := lit "b";
               cand_pinyin := lit "x1";
               cand_definitions := [lit "two"; lit "three"] |}
            _ _ _ _ _).
  all: vm_compute; reflexivity.
Defined.

(** C9: merging a later candidate into the record stored under its
    traditional key leaves the record's traditional and simplified fields
    as they were, whatever simplified spelling the candidate has; they stay
    so until the loop ends. *)
Theorem merge_keeps_headwords frequency_map d c existing :
  d !! cand_traditional c = Some existing ->
  (exists merged,
     merge_candidate frequency_map d c !! cand_traditional c = Some merged /\
     traditional merged = traditional existing /\
     simplified merged = simplified existing) /\
  (forall max_entries lines count, exists final,
     parse_loop frequency_map max_entries lines
       (merge_candidate frequency_map d c) count
       !! cand_traditional c = Some final /\
     traditional final = traditional existing /\
     simplified final = simplified existing).
Proof.
  intros Hk.
  destruct (merge_candidate_extends frequency_map d c _ _ Hk)
    as (merged & Hm & Ht & Hs & _).
  split; [now exists merged|].
  intros max_entries lines count.
  destruct (parse_loop_extends frequency_map max_entries lines _ count _ _ Hm)
    as (final & Hf & Ht' & Hs' & _).
  exists final. repeat split; [exact Hf|congruence|congruence].
Qed.

Lemma merge_keeps_headwords_witness :
  let first := {| traditional := lit "A"; simplified := lit "a";
                  pinyin := lit "x"; definitions := [lit "one"];
                  frequency := None |} in
  let c := {| cand_traditional := lit "A"; cand_simplified := lit "b";
              cand_pinyin := lit "y"; cand_definitions := [lit "two"] |} in
  exists merged,
    merge_candidate ∅ {[ lit "A" := first ]} c !! lit "A" = Some merged /\
    traditional merged = lit "A" /\ simplified merged = lit "a".
Proof.
  intros first c.
  exact (proj1 (merge_keeps_headwords ∅ {[ lit "A" := first ]} c first
                  (lookup_singleton_eq (lit "A") first))).
Defined.

(** C4: a merge step changes the frequency stored in a record only when
    the candidate's frequency is present and the record holds no value or a
    strictly smaller one; so from any point of the loop on, a record's
    stored frequency never decreases. *)
Theorem frequency_only_raised frequency_map d c k r :
  d !! k = Some r ->
  (exists r',
     merge_candidate frequency_map d c !! k = Some r' /\
     (frequency r' ≠ frequency r ->
      exists f,
        lookup_frequency frequency_map (cand_traditional c)
          (cand_simplified c) = Some f /\
        frequency r' = Some f /\
        match frequency r with Some old => old < f | None => True end)) /\
  (forall max_entries lines count, exists final,
     parse_loop frequency_map max_entries lines d count !! k = Some final /\
     frequency_le (frequency r) (frequency final)).
Proof.
  intros Hk. split.
  - destruct (decide (k = cand_traditional c)) as [->|Hne].
    + rewrite merge_candidate_key, Hk. eexists. split; [reflexivity|].
      simpl.
      destruct (takes_frequency _ (frequency r)) eqn:Htake;
        [|intros Hneq; now destruct Hneq].
      intros _. destruct (takes_frequency_true _ _ Htake) as (f & Hf & _ & Hgt).
      exists f. now rewrite Hf.
    + rewrite merge_candidate_other by exact Hne.
      exists r. split; [exact Hk|]. intros Hneq; now destruct Hneq.
  - intros max_entries lines count.
    destruct (parse_loop_extends frequency_map max_entries lines d count k r Hk)
      as (final & Hf & _ & _ & Hle).
    now exists final.
Qed.

Lemma frequency_only_raised_witness :
  let stored := {| traditional := lit "A"; simplified := lit "a";
                   pinyin := lit "x"; definitions := [lit "one"];
                   frequency := Some 7 |} in
  exists final,
    parse_loop {[ lit "A" := 3 ]} None [lit "A a [y] /two/"]
      {[ lit "A" := stored ]} 0 !! lit "A" = Some final /\
    frequency_le (Some 7) (frequency final).
Proof.
  intros stored.
  exact (proj2 (frequency_only_raised {[ lit "A" := 3 ]}
                  {[ lit "A" := stored ]}
                  {| cand_traditional := lit "A"; cand_simplified := lit "a";
                     cand_pinyin := lit "y"; cand_definitions := [] |}
                  (lit "A") stored (lookup_singleton_eq (lit "A") stored))
           None [lit "A a [y] /two/"] 0).
Defined.

Lemma merge_candidate_well_formed frequency_map d c :
  well_formed d -> well_formed (merge_candidate frequency_map d c).
Proof.
  intros Hwf k r. destruct (decide (k = cand_traditional c)) as [->|Hne].
  - rewrite merge_candidate_key. intros [= <-]. split; [|reflexivity].
    destruct (d !! cand_traditional c) as [existing|] eqn:Hk; [|reflexivity].
    simpl. now apply Hwf.
  - rewrite merge_candidate_other by exact Hne. apply Hwf.
Qed.

(** C10: in the mapping [parse_cedict] returns, every key is the
    traditional field of its record and every record has exactly the five
    fields traditional, simplified, pinyin, definitions and frequency; each
    merge step preserves both. *)
Theorem parse_cedict_well_formed :
  (forall lines frequency_map max_entries,
     well_formed (parse_cedict lines frequency_map max_entries)) /\
  (forall frequency_map d c,
     well_formed d -> well_formed (merge_candidate frequency_map d c)).
Proof.
  split; [|exact merge_candidate_well_formed].
  intros lines frequency_map max_entries. unfold parse_cedict.
  apply (parse_loop_preserves frequency_map max_entries well_formed
           (fun _ => True)).
  - intros d c _. apply merge_candidate_well_formed.
  - intros; exact I.
  - intros k r. now rewrite lookup_empty.
Qed.

Lemma parse_cedict_well_formed_witness :
  well_formed (parse_cedict [zhongguo1; zhongguo2] ∅ None) /\
  well_formed
    (merge_candidate ∅ ∅
       {| cand_traditional := lit "A"; cand_simplified := lit "a";
          cand_pinyin := lit "x"; cand_definitions := [] |}).
Proof.
  split.
  - exact (proj1 parse_cedict_well_formed [zhongguo1; zhongguo2] ∅ None).
  - apply (proj2 parse_cedict_well_formed).
    intros k r. rewrite lookup_empty. discriminate.
Defined.

(** ** Pronunciations *)

Lemma merge_candidate_pinyin frequency_map d c :
  cand_pinyin c ≠ [] ->
  (forall k r, d !! k = Some r -> pinyin r ≠ []) ->
  forall k r, merge_candidate frequency_map d c !! k = Some r -> pinyin r ≠ [].
Proof.
  intros Hc Hd k r. destruct (decide (k = cand_traditional c)) as [->|Hne].
  - rewrite merge_candidate_key. intros [= <-].
    destruct (d !! cand_traditional c) as [existing|] eqn:Hk; [|exact Hc].
    simpl. specialize (Hd _ _ Hk).
    destruct (bool_decide _); [|exact Hd].
    destruct (pinyin existing); [now destruct Hd|discriminate].
  - rewrite merge_candidate_other by exact Hne. apply Hd.
Qed.

(** C3, as the code has it: a line whose bracketed pronunciation is empty
    is accepted, so a record can have an empty pinyin; when no accepted line
    has an empty pronunciation, no record of the result has an empty
    pinyin. *)
Theorem pinyin_nonempty lines frequency_map max_entries :
  (forall line c, line ∈ lines -> parse_line line = Some c ->
                  cand_pinyin c ≠ []) ->
  forall k r,
    parse_cedict lines frequency_map max_entries !! k = Some r ->
    pinyin r ≠ [].
Proof.
  intros Hlines. unfold parse_cedict.
  apply (parse_loop_preserves frequency_map max_entries
           (fun d => forall k r, d !! k = Some r -> pinyin r ≠ [])
           (fun c => cand_pinyin c ≠ [])).
  - intros d c. apply merge_candidate_pinyin.
  - exact Hlines.
  - intros k r. now rewrite lookup_empty.
Qed.

Lemma pinyin_nonempty_witness :
  exists r,
    parse_cedict [zhongguo1; zhongguo2] ∅ None !! [0x4E2D; 0x570B]%N = Some r /\
    pinyin r ≠ [].
Proof.
  assert (Hlines : forall line c,
            line ∈ [zhongguo1; zhongguo2] -> parse_line line = Some c ->
            cand_pinyin c ≠ []).
  { intros line c Hin. apply list_elem_of_In in Hin.
    destruct Hin as [<-|[<-|[]]]; vm_compute; intros [= <-]; discriminate. }
  destruct (parse_cedict [zhongguo1; zhongguo2] ∅ None !! [0x4E2D; 0x570B]%N)
    as [r|] eqn:Hr; [|vm_compute in Hr; discriminate].
  exists r. split; [reflexivity|].
  exact (pinyin_nonempty [zhongguo1; zhongguo2] ∅ None Hlines _ r Hr).
Defined.

(** C3 fails as stated: the line [A a [] /x/] is not discarded, and its
    record has an empty pinyin. *)
Lemma empty_pinyin_stored :
  exists r,
    parse_cedict [lit "A a [] /x/" ++ [c_newline]] ∅ None !! lit "A" = Some r /\
    pinyin r = [].
Proof. eexists. split; [vm_compute; reflexivity|reflexivity]. Qed.

(** ** Frequency of a new record *)

(** C7, as the code has it: the frequency of a record created for a new
    key is the mapping's value for the traditional form when the mapping
    has one other than 0, otherwise the mapping's value for the simplified
    form when it has one, and otherwise unset; for a mapping that does not
    send the traditional form to 0 this is the lookup of the traditional
    form first and of the simplified form second. *)
Theorem new_entry_frequency frequency_map d c :
  d !! cand_traditional c = None ->
  exists r,
    merge_candidate frequency_map d c !! cand_traditional c = Some r /\
    frequency r =
      match frequency_map !! cand_traditional c with
      | Some f => if bool_decide (f = 0)
                  then frequency_map !! cand_simplified c else Some f
      | None => frequency_map !! cand_simplified c
      end /\
    (frequency_map !! cand_traditional c ≠ Some 0 ->
     frequency r =
       match frequency_map !! cand_traditional c with
       | Some f => Some f
       | None => frequency_map !! cand_simplified c
       end).
Proof.
  intros Hk. rewrite merge_candidate_key, Hk. eexists.
  split; [reflexivity|]. simpl. unfold lookup_frequency, Py.or_, Py.truthy.
  destruct (frequency_map !! cand_traditional c) as [f|]; [|now split].
  destruct (Z.eqb_spec f 0) as [->|Hnz]; simpl.
  - split; [reflexivity|]. intros Hne. now destruct Hne.
  - rewrite bool_decide_eq_false_2 by exact Hnz. now split.
Qed.

Lemma new_entry_frequency_witness :
  let c := {| cand_traditional := [0x4E2D; 0x570B]%N;
              cand_simplified := [0x4E2D; 0x56FD]%N;
              cand_pinyin := lit "Zhong1 guo2";
              cand_definitions := [lit "China"] |} in
  exists r,
    merge_candidate {[ [0x4E2D; 0x56FD]%N := 10500 ]} ∅ c
      !! [0x4E2D; 0x570B]%N = Some r /\
    frequency r = Some 10500.
Proof.
  intros c.
  destruct (new_entry_frequency {[ [0x4E2D; 0x56FD]%N := 10500 ]} ∅ c
              (lookup_empty _)) as (r & Hr & Hf & _).
  exists r. split; [exact Hr|]. rewrite Hf. vm_compute. reflexivity.
Defined.

(** C7 fails as stated: the mapping contains the traditional form [A],
    with value 0, and the record takes the value of the simplified form. *)
Lemma zero_score_falls_through :
  let frequency_map : gmap str Z := {[ lit "A" := 0; lit "a" := 5 ]} in
  frequency_map !! lit "A" = Some 0 /\
  exists r,
    parse_cedict [lit "A a [x] /y/" ++ [c_newline]] frequency_map None !! lit "A"
    = Some r /\
    frequency r = Some 5.
Proof.
  split; [vm_compute; reflexivity|].
  eexists. split; [vm_compute; reflexivity|reflexivity].
Qed.

(** ** Text lemmas *)

Section Text.

Lemma cut_absent sep s : sep ∉ s -> Py.cut sep s = (s, None).
Proof.
  induction s as [|c s IH]; intros Hnot; [reflexivity|].
  simpl. destruct (N.eqb_spec c sep) as [->|Hne].
  - destruct Hnot. left.
  - rewrite IH; [reflexivity|]. intros Hin. apply Hnot. now right.
Qed.

Lemma cut_first sep h t :
  sep ∉ h -> Py.cut sep (h ++ sep :: t) = (h, Some t).
Proof.
  induction h as [|c h IH]; intros Hnot; simpl.
  - now rewrite N.eqb_refl.
  - destruct (N.eqb_spec c sep) as [->|Hne].
    + destruct Hnot. left.
    + rewrite IH; [reflexivity|]. intros Hin. apply Hnot. now right.
Qed.

Lemma split1_absent sep s : sep ∉ s -> Py.split1 sep s = [s].
Proof. intros Hnot. unfold Py.split1. now rewrite cut_absent. Qed.

Lemma split1_first sep h t :
  sep ∉ h -> Py.split1 sep (h ++ sep :: t) = [h; t].
Proof. intros Hnot. unfold Py.split1. now rewrite cut_first. Qed.

Lemma words_from_lstrip s :
  Py.words_from [] (Py.lstrip_by Py.isspace s) = Py.words_from [] s.
Proof.
  induction s as [|c s IH]; [reflexivity|].
  simpl. destruct (Py.isspace c) eqn:Hc; [exact IH|].
  simpl. now rewrite Hc.
Qed.

Lemma words_from_snoc_space cur s c :
  Py.isspace c = true ->
  Py.words_from cur (s ++ [c]) = Py.words_from cur s.
Proof.
  intros Hc. revert cur.
  induction s as [|x s IH]; intros cur; simpl.
  - rewrite Hc. now destruct cur.
  - destruct (Py.isspace x); [|apply IH].
    destruct cur; now rewrite IH.
Qed.

Lemma words_from_rstrip cur s :
  Py.words_from cur (rev (Py.lstrip_by Py.isspace (rev s))) =
  Py.words_from cur s.
Proof.
  induction s as [|c s IH] using rev_ind; [reflexivity|].
  rewrite rev_app_distr. simpl.
  destruct (Py.isspace c) eqn:Hc.
  - now rewrite IH, words_from_snoc_space.
  - simpl. now rewrite rev_involutive.
Qed.

(** [s.strip().split()] is [s.split()]. *)
Lemma words_strip s : Py.words (Py.strip s) = Py.words s.
Proof.
  unfold Py.words, Py.strip, Py.strip_by.
  now rewrite words_from_rstrip, words_from_lstrip.
Qed.

End Text.

(** ** Malformed lines *)

Lemma malformed_rejected line : malformed line -> parse_line line = None.
Proof.
  intros Hbad. unfold parse_line.
  destruct (Py.startswith c_hash line); [reflexivity|].
  destruct Hbad as [Hno|h t -> Hh Ht|h t -> Hh Hshort].
  - now rewrite split1_absent.
  - rewrite split1_first by exact Hh.
    rewrite split1_absent by exact Ht.
    now destruct (Py.words (Py.strip h)) as [|? [|? ?]].
  - rewrite split1_first by exact Hh. rewrite words_strip.
    destruct (Py.words h) as [|? [|? ?]]; [reflexivity|reflexivity|].
    simpl in Hshort. lia.
Qed.

(** C6: a line with no [[], or with no []] after the first [[], or with
    fewer than two tokens before the first [[], yields no candidate, and
    the loop goes on with the following lines from the same dictionary and
    count. *)
Theorem malformed_line_skipped line :
  malformed line ->
  parse_line line = None /\
  forall frequency_map max_entries rest dictionary count,
    parse_loop frequency_map max_entries (line :: rest) dictionary count =
    parse_loop frequency_map max_entries rest dictionary count.
Proof.
  intros Hbad. pose proof (malformed_rejected line Hbad) as Hnone.
  split; [exact Hnone|]. intros. now apply parse_loop_skip.
Qed.

Lemma malformed_line_skipped_witness :
  parse_line (lit "A a Zhong1] /x/") = None /\
  parse_line (lit "A a [Zhong1 /x/") = None /\
  parse_line (lit "A [Zhong1] /x/") = None /\
  parse_cedict [lit "A [Zhong1] /x/"; zhongguo1] ∅ None =
  parse_cedict [zhongguo1] ∅ None.
Proof.
  split; [|split; [|split]].
  - apply malformed_line_skipped, no_opening.
    intros Hin%list_elem_of_In. vm_compute in Hin.
    repeat (destruct Hin as [Hin|Hin]; [discriminate|]). exact Hin.
  - apply malformed_line_skipped,
      (no_closing _ (lit "A a ") (lit "Zhong1 /x/")); [reflexivity| |].
    + intros Hin%list_elem_of_In. vm_compute in Hin.
      repeat (destruct Hin as [Hin|Hin]; [discriminate|]). exact Hin.
    + intros Hin%list_elem_of_In. vm_compute in Hin.
      repeat (destruct Hin as [Hin|Hin]; [discriminate|]). exact Hin.
  - apply malformed_line_skipped,
      (short_head _ (lit "A ") (lit "Zhong1] /x/")); [reflexivity| |].
    + intros Hin%list_elem_of_In. vm_compute in Hin.
      repeat (destruct Hin as [Hin|Hin]; [discriminate|]). exact Hin.
    + vm_compute. lia.
  - apply malformed_line_skipped,
      (short_head _ (lit "A ") (lit "Zhong1] /x/")); [reflexivity| |].
    + intros Hin%list_elem_of_In. vm_compute in Hin.
      repeat (destruct Hin as [Hin|Hin]; [discriminate|]). exact Hin.
    + vm_compute. lia.
Defined.

(** ** Distinct keys *)

Lemma parse_loop_distinct frequency_map max_entries lines cands :
  Forall2 (fun line c => parse_line line = Some c) lines cands ->
  forall d count,
    NoDup (cand_traditional <$> cands) ->
    (forall c, c ∈ cands -> d !! cand_traditional c = None) ->
    (forall n, count < n < count + Z.of_nat (length lines) ->
               cap_reached max_entries n = false) ->
    let d' := parse_loop frequency_map max_entries lines d count in
    (forall c, c ∈ cands ->
       d' !! cand_traditional c =
       Some (new_entry c (lookup_frequency frequency_map
                            (cand_traditional c) (cand_simplified c)))) /\
    (forall k, k ∉ cand_traditional <$> cands -> d' !! k = d !! k) /\
    size d' = (size d + length cands)%nat.
Proof.
  induction 1 as [|line c lines cands Hline Hall IH];
    intros d count Hnodup Hfresh Hcap d'.
  - subst d'. simpl. repeat split; [|lia].
    intros c Hin. now apply elem_of_nil in Hin.
  - rewrite fmap_cons in Hnodup. apply NoDup_cons in Hnodup as [Hc Hnodup].
    pose (d1 := merge_candidate frequency_map d c).
    assert (Hd1 : d1 = <[cand_traditional c :=
                           new_entry c (lookup_frequency frequency_map
                             (cand_traditional c) (cand_simplified c))]> d).
    { apply merge_candidate_new, Hfresh. left. }
    assert (Hd' : d' = parse_loop frequency_map max_entries lines d1
                         (count + 1)).
    { subst d'. rewrite (parse_loop_accept _ _ _ _ _ _ c Hline). fold d1.
      destruct (cap_reached max_entries (count + 1)) eqn:Hreached;
        [|reflexivity].
      destruct lines as [|line' lines']; [reflexivity|].
      rewrite Hcap in Hreached; [discriminate|]. simpl length. lia. }
    assert (Hfresh1 : forall c', c' ∈ cands -> d1 !! cand_traditional c' = None).
    { intros c' Hin. rewrite Hd1, lookup_insert_ne.
      - apply Hfresh. now right.
      - intros Heq. apply Hc. rewrite Heq. now apply list_elem_of_fmap_2. }
    assert (Hcap1 : forall n, count + 1 < n < count + 1 + Z.of_nat (length lines)
                              -> cap_reached max_entries n = false).
    { intros n Hn. apply Hcap. simpl length. lia. }
    destruct (IH d1 (count + 1) Hnodup Hfresh1 Hcap1) as (Hin & Hout & Hsize).
    rewrite <- Hd' in Hin, Hout, Hsize.
    split; [|split].
    + intros c' [->|Hc']%elem_of_cons; [|now apply Hin].
      rewrite Hout by exact Hc. rewrite Hd1. apply lookup_insert_eq.
    + intros k Hk. rewrite fmap_cons in Hk.
      apply not_elem_of_cons in Hk as [Hne Hk].
      rewrite Hout by exact Hk. rewrite Hd1. now apply lookup_insert_ne.
    + rewrite Hsize, Hd1, map_size_insert_None by (apply Hfresh; left).
      simpl. lia.
Qed.

(** C8: accepted lines with pairwise distinct traditional keys, all of
    them read ([max_entries] does not stop the loop before the last one),
    give a mapping whose keys are exactly those keys, one record for each,
    and every record's traditional, simplified, pinyin and definitions
    fields are those parsed from the line of its key. *)
Theorem distinct_keys_one_record_each lines cands frequency_map max_entries :
  Forall2 (fun line c => parse_line line = Some c) lines cands ->
  NoDup (cand_traditional <$> cands) ->
  (forall n, 0 < n < Z.of_nat (length lines) ->
             cap_reached max_entries n = false) ->
  let d := parse_cedict lines frequency_map max_entries in
  (forall k, is_Some (d !! k) <-> k ∈ cand_traditional <$> cands) /\
  size d = length lines /\
  (forall c, c ∈ cands ->
     exists r, d !! cand_traditional c = Some r /\
               traditional r = cand_traditional c /\
               simplified r = cand_simplified c /\
               pinyin r = cand_pinyin c /\
               definitions r = cand_definitions c).
Proof.
  intros Hall Hnodup Hcap d.
  destruct (parse_loop_distinct frequency_map max_entries lines cands Hall
              ∅ 0 Hnodup) as (Hin & Hout & Hsize).
  { intros c _. apply lookup_empty. }
  { intros n Hn. apply Hcap. lia. }
  fold (parse_cedict lines frequency_map max_entries) in Hin, Hout, Hsize.
  fold d in Hin, Hout, Hsize.
  split; [|split].
  - intros k. split.
    + intros Hsome. destruct (decide (k ∈ cand_traditional <$> cands))
        as [Hk|Hk]; [exact Hk|].
      rewrite (Hout k Hk), lookup_empty in Hsome. now destruct Hsome.
    + intros (c & -> & Hc)%list_elem_of_fmap. rewrite (Hin c Hc). eauto.
  - rewrite Hsize, map_size_empty. simpl.
    symmetry. eapply Forall2_length, Hall.
  - intros c Hc. eexists. split; [apply Hin, Hc|]. now repeat split.
Qed.

Lemma distinct_keys_one_record_each_witness :
  let d := parse_cedict [zhongguo1; lit "B b [bi3] /two/"] ∅ None in
  size d = 2%nat /\
  exists r, d !! lit "B" = Some r /\
            traditional r = lit "B" /\ simplified r = lit "b" /\
            pinyin r = lit "bi3" /\ definitions r = [lit "two"].
Proof.
  pose (c1 := {| cand_traditional := [0x4E2D; 0x570B]%N;
                 cand_simplified := [0x4E2D; 0x56FD]%N;
                 cand_pinyin := lit "Zhong1 guo2";
                 cand_definitions := [lit "China"; lit "Middle Kingdom"] |}).
  pose (c2 := {| cand_traditional := lit "B"; cand_simplified := lit "b";
                 cand_pinyin := lit "bi3"; cand_definitions := [lit "two"] |}).
  destruct (distinct_keys_one_record_each
              [zhongguo1; lit "B b [bi3] /two/"] [c1; c2] ∅ None)
    as (_ & Hsize & Hrec).
  - repeat constructor; vm_compute; reflexivity.
  - apply (bool_decide_unpack _). vm_compute. exact I.
  - intros n _. reflexivity.
  - split; [exact Hsize|]. apply (Hrec c2). right. left.
Defined.

(** ** Frequency table *)

Lemma record_word_lookup frequency_map w rank w' :
  record_word frequency_map w rank !! w' =
  match frequency_map !! w' with
  | Some s => Some s
  | None => if bool_decide (w' ≠ [] /\ w' = w) then Some (score_of rank)
            else None
  end.
Proof.
  unfold record_word.
  destruct (decide (w ≠ [])) as [Hw|Hw].
  - rewrite (bool_decide_eq_true_2 _ Hw). simpl.
    destruct (decide (frequency_map !! w = None)) as [Hnone|Hsome].
    + rewrite (bool_decide_eq_true_2 _ Hnone).
      destruct (decide (w' = w)) as [->|Hne].
      * rewrite lookup_insert_eq, Hnone.
        now rewrite bool_decide_eq_true_2.
      * rewrite lookup_insert_ne by congruence.
        destruct (frequency_map !! w'); [reflexivity|].
        rewrite bool_decide_eq_false_2; [reflexivity|]. now intros [_ ?].
    + rewrite (bool_decide_eq_false_2 _ Hsome).
      destruct (frequency_map !! w') eqn:Hw'; [reflexivity|].
      rewrite bool_decide_eq_false_2; [reflexivity|].
      intros [_ ->]. now destruct Hsome.
  - rewrite (bool_decide_eq_false_2 _ Hw). simpl.
    destruct (frequency_map !! w'); [reflexivity|].
    rewrite bool_decide_eq_false_2; [reflexivity|].
    intros [Hne ->]. now destruct Hw.
Qed.

Lemma process_row_count i frequency_map row_count cells :
  (process_row i (frequency_map, row_count) cells).2 =
  row_count + (if counted cells then 1 else 0).
Proof.
  unfold process_row, counted.
  destruct cells as [|cell0 [|cell1 cells]]; simpl; try lia.
  destruct (_ || _); simpl; lia.
Qed.

Lemma process_row_lookup i frequency_map row_count cells w :
  (process_row i (frequency_map, row_count) cells).1 !! w =
  match frequency_map !! w with
  | Some s => Some s
  | None => if row_has w cells
            then Some (score_of (rank_of i (row_count + 1))) else None
  end.
Proof.
  unfold process_row, row_has, row_words.
  destruct cells as [|cell0 [|cell1 cells]];
    try (simpl; now destruct (frequency_map !! w)).
  destruct (_ || _); [simpl; now destruct (frequency_map !! w)|].
  cbn [fst]. rewrite !record_word_lookup.
  destruct (frequency_map !! w); [reflexivity|].
  destruct (decide (w ≠ [])) as [Hw|Hw].
  - destruct (decide (w = Py.strip (strip_tags cell0))) as [Ht|Ht].
    + rewrite (bool_decide_eq_true_2 (_ /\ w = _)) by tauto.
      rewrite (bool_decide_eq_true_2 (_ /\ (_ \/ _))) by tauto.
      reflexivity.
    + rewrite (bool_decide_eq_false_2 (_ /\ w = Py.strip (strip_tags cell0)))
        by tauto.
      destruct (decide (w = Py.strip (strip_tags cell1))) as [Hs|Hs].
      * rewrite (bool_decide_eq_true_2 (_ /\ w = _)) by tauto.
        rewrite (bool_decide_eq_true_2 (_ /\ (_ \/ _))) by tauto.
        reflexivity.
      * rewrite (bool_decide_eq_false_2 (_ /\ w = _)) by tauto.
        rewrite (bool_decide_eq_false_2 (_ /\ (_ \/ _))) by tauto.
        reflexivity.
  - rewrite !(bool_decide_eq_false_2 (_ /\ w = _)) by tauto.
    rewrite (bool_decide_eq_false_2 (_ /\ (_ \/ _))) by tauto.
    reflexivity.
Qed.

Lemma row_has_counted w cells : row_has w cells = true -> counted cells = true.
Proof.
  unfold row_has, row_words, counted.
  destruct cells as [|cell0 [|cell1 cells]]; try discriminate.
  intros _. apply bool_decide_eq_true_2. simpl. lia.
Qed.

Lemma fold_rows_lookup i w rows : forall frequency_map row_count,
  (fold_left (process_row i) rows (frequency_map, row_count)).1 !! w =
  match frequency_map !! w with
  | Some s => Some s
  | None => page_score i w rows row_count
  end.
Proof.
  induction rows as [|cells rest IH]; intros fm rc; cbn [fold_left page_score].
  - cbn [fst]. now destruct (fm !! w).
  - pose proof (process_row_lookup i fm rc cells w) as Hl.
    pose proof (process_row_count i fm rc cells) as Hc.
    destruct (process_row i (fm, rc) cells) as [fm1 rc1].
    cbn [fst snd] in Hl, Hc. rewrite IH, Hl, Hc.
    destruct (fm !! w); [reflexivity|].
    now destruct (row_has w cells).
Qed.

Lemma process_pages_lookup w pages : forall i frequency_map,
  process_pages i frequency_map pages !! w =
  match frequency_map !! w with
  | Some s => Some s
  | None => pages_score i w pages
  end.
Proof.
  induction pages as [|page rest IH]; intros i fm;
    cbn [process_pages pages_score].
  - now destruct (fm !! w).
  - rewrite IH. destruct page as [rows|]; cbn [process_page from_option];
      [|reflexivity].
    rewrite fold_rows_lookup.
    destruct (fm !! w); [reflexivity|].
    now destruct (page_score i w rows 0).
Qed.

Lemma page_score_first i w rows : forall j row_count cells,
  rows !! j = Some cells ->
  row_has w cells = true ->
  (forall j' cells', (j' < j)%nat -> rows !! j' = Some cells' ->
                     row_has w cells' = false) ->
  page_score i w rows row_count =
  Some (score_of (rank_of i (row_count + position_in_page rows j))).
Proof.
  induction rows as [|cells0 rest IH]; intros j rc cells Hj Hhas Hfirst;
    [discriminate|].
  destruct j as [|j]; simpl in Hj.
  - injection Hj as ->. simpl. rewrite Hhas.
    unfold position_in_page. simpl.
    rewrite (row_has_counted _ _ Hhas). unfold score_of, rank_of; f_equal; lia.
  - simpl. rewrite (Hfirst 0%nat cells0) by first [lia|reflexivity].
    rewrite (IH j _ cells Hj Hhas).
    + unfold position_in_page. simpl. unfold score_of, rank_of; f_equal; lia.
    + intros j' cells' Hlt. apply (Hfirst (S j')). lia.
Qed.

Lemma page_score_none i w rows : forall row_count,
  (forall j cells, rows !! j = Some cells -> row_has w cells = false) ->
  page_score i w rows row_count = None.
Proof.
  induction rows as [|cells0 rest IH]; intros rc Hnone; [reflexivity|].
  simpl. rewrite (Hnone 0%nat cells0) by reflexivity.
  apply IH. intros j. apply (Hnone (S j)).
Qed.

Lemma page_score_inv i w rows : forall row_count s,
  page_score i w rows row_count = Some s ->
  exists j cells,
    rows !! j = Some cells /\ row_has w cells = true /\
    (forall j' cells', (j' < j)%nat -> rows !! j' = Some cells' ->
                       row_has w cells' = false) /\
    s = score_of (rank_of i (row_count + position_in_page rows j)).
Proof.
  induction rows as [|cells0 rest IH]; intros rc s Hs; [discriminate|].
  simpl in Hs. destruct (row_has w cells0) eqn:Hhas.
  - injection Hs as <-. exists 0%nat, cells0.
    split; [reflexivity|]. split; [exact Hhas|]. split; [intros; lia|].
    unfold position_in_page. simpl.
    rewrite (row_has_counted _ _ Hhas). unfold score_of, rank_of; f_equal; lia.
  - destruct (IH _ _ Hs) as (j & cells & Hj & Hc & Hfirst & ->).
    exists (S j), cells. split; [exact Hj|]. split; [exact Hc|]. split.
    + intros [|j'] cells' Hlt; simpl.
      * now intros [= <-].
      * apply Hfirst. lia.
    + unfold position_in_page. simpl. unfold score_of, rank_of; f_equal; lia.
Qed.

Lemma page_score_is_None i w rows row_count :
  page_score i w rows row_count = None ->
  forall j cells, rows !! j = Some cells -> row_has w cells = false.
Proof.
  revert row_count.
  induction rows as [|cells0 rest IH]; intros rc Hs j cells Hj;
    [discriminate|].
  simpl in Hs. destruct (row_has w cells0) eqn:Hhas; [discriminate|].
  destruct j as [|j]; simpl in Hj; [now injection Hj as <-|].
  eapply IH; eassumption.
Qed.

Lemma accepted_at_tail page rest w i j rows :
  accepted_at (page :: rest) w (S i) j rows <-> accepted_at rest w i j rows.
Proof. reflexivity. Qed.

Lemma pages_score_first w pages : forall i0 i j rows,
  first_accepted_at pages w i j rows ->
  pages_score i0 w pages =
  Some (score_of (rank_of (i0 + Z.of_nat i) (position_in_page rows j))).
Proof.
  induction pages as [|page rest IH];
    intros i0 i j rows [[Hpage (cells & Hj & Hhas)] Hfirst].
  - now rewrite lookup_nil in Hpage.
  - destruct i as [|i]; cbn [pages_score].
    + injection Hpage as ->. cbn [from_option].
      rewrite (page_score_first i0 w rows j 0 cells Hj Hhas).
      * unfold score_of, rank_of; f_equal; lia.
      * intros j' cells' Hlt Hj'.
        destruct (row_has w cells') eqn:Hhas'; [|reflexivity].
        destruct (Hfirst 0%nat j' rows) as [?|[_ ?]]; [|lia|lia].
        split; [reflexivity|eauto].
    + assert (Hnone :
        from_option (fun rows0 => page_score i0 w rows0 0) None page = None).
      { destruct page as [rows0|]; [|reflexivity]. cbn [from_option].
        apply page_score_none. intros j' cells' Hj'.
        destruct (row_has w cells') eqn:Hhas'; [|reflexivity].
        destruct (Hfirst 0%nat j' rows0) as [?|[? _]]; [|lia|lia].
        split; [reflexivity|eauto]. }
      rewrite Hnone, (IH (i0 + 1) i j rows).
      * unfold score_of, rank_of; f_equal; lia.
      * split; [split; [exact Hpage|eauto]|].
        intros i' j' rows' Hacc.
        destruct (Hfirst (S i') j' rows') as [?|[? ?]];
          [exact Hacc|left; lia|right; lia].
Qed.

Lemma pages_score_inv w pages : forall i0 s,
  pages_score i0 w pages = Some s ->
  exists i j rows,
    first_accepted_at pages w i j rows /\
    s = score_of (rank_of (i0 + Z.of_nat i) (position_in_page rows j)).
Proof.
  induction pages as [|page rest IH]; intros i0 s Hs; [discriminate|].
  cbn [pages_score] in Hs.
  destruct (from_option (fun rows => page_score i0 w rows 0) None page)
    as [s0|] eqn:Hpage.
  - injection Hs as ->.
    destruct page as [rows|]; [|discriminate]. cbn [from_option] in Hpage.
    destruct (page_score_inv _ _ _ _ _ Hpage)
      as (j & cells & Hj & Hhas & Hfirst & ->).
    exists 0%nat, j, rows. split.
    + split; [split; [reflexivity|eauto]|].
      intros [|i'] j' rows' [Hp (cells' & Hj' & Hhas')]; [|left; lia].
      right. split; [reflexivity|]. injection Hp as <-.
      destruct (decide (j <= j')%nat) as [?|Hlt]; [assumption|].
      rewrite (Hfirst j' cells') in Hhas'; [discriminate|lia|exact Hj'].
    + unfold score_of, rank_of; f_equal; lia.
  - destruct (IH _ _ Hs) as (i & j & rows & [Hacc Hfirst] & ->).
    exists (S i), j, rows. split.
    + split; [exact Hacc|].
      intros [|i'] j' rows' Hacc'.
      * destruct Hacc' as [Hp (cells' & Hj' & Hhas')].
        injection Hp as ->. cbn [from_option] in Hpage.
        rewrite (page_score_is_None _ _ _ _ Hpage _ _ Hj') in Hhas'.
        discriminate.
      * destruct (Hfirst i' j' rows' Hacc') as [?|[? ?]];
          [left; lia|right; lia].
    + unfold score_of, rank_of; f_equal; lia.
Qed.

(** C2, as the code has it: the score the frequency mapping holds for a
    word is [11000 - r], where [r = page_index * 1000 + position_in_page]
    is the 1-based global rank of the first accepted row carrying the word;
    rank 1 gives 10999 and rank 11000 gives 0. *)
Theorem score_inverts_rank pages w :
  (forall i j rows,
     first_accepted_at pages w i j rows ->
     download_frequency_lists pages !! w =
     Some (11000 - (Z.of_nat i * 1000 + position_in_page rows j))) /\
  (forall s,
     download_frequency_lists pages !! w = Some s ->
     exists i j rows,
       first_accepted_at pages w i j rows /\
       s = 11000 - (Z.of_nat i * 1000 + position_in_page rows j)).
Proof.
  unfold download_frequency_lists. split.
  - intros i j rows Hfirst.
    rewrite process_pages_lookup, lookup_empty.
    now rewrite (pages_score_first w pages 0 i j rows Hfirst).
  - intros s. rewrite process_pages_lookup, lookup_empty. intros Hs.
    destruct (pages_score_inv w pages 0 s Hs) as (i & j & rows & Hf & ->).
    now exists i, j, rows.
Qed.

Lemma score_inverts_rank_witness :
  download_frequency_lists sample_pages !! [0x662F%N] = Some 9998.
Proof.
  refine (proj1 (score_inverts_rank sample_pages [0x662F%N]) 1%nat 1%nat
            [ [[0x7684%N]; [0x7684%N]]; [lit " " ++ [0x662F%N]; [0x662F%N]] ]
            _).
  split.
  - split; [reflexivity|]. eexists. split; [reflexivity|].
    vm_compute. reflexivity.
  - intros i' j' rows' [Hp (cells & Hj & Hhas)].
    destruct i' as [|[|i']]; [| |discriminate].
    + injection Hp as <-.
      destruct j' as [|[|[|j']]]; [| | |discriminate];
        injection Hj as <-; vm_compute in Hhas; discriminate.
    + right. split; [reflexivity|]. injection Hp as <-.
      destruct j' as [|j']; [|lia].
      injection Hj as <-. vm_compute in Hhas. discriminate.
Defined.

(** C2 fails as stated: the word of the first row of the first page has
    rank 1 and score 10999, not [11000 + 1 - 1]. *)
Lemma rank_one_scores_10999 :
  let pages := [Some [[[0x7684%N]; [0x7684%N]]]] in
  first_accepted_at pages [0x7684%N] 0 0 [[[0x7684%N]; [0x7684%N]]] /\
  rank_of 0 (position_in_page [[[0x7684%N]; [0x7684%N]]] 0) = 1 /\
  download_frequency_lists pages !! [0x7684%N] = Some 10999 /\
  download_frequency_lists pages !! [0x7684%N] ≠ Some (11000 + 1 - 1).
Proof.
  split; [|split; [|split]].
  - split.
    + split; [reflexivity|]. eexists. split; [reflexivity|].
      vm_compute. reflexivity.
    + intros [|i'] j' rows' [Hp _]; [|discriminate].
      right. split; [reflexivity|lia].
  - reflexivity.
  - vm_compute. reflexivity.
  - vm_compute. discriminate.
Qed.

(** ** Lines in the CC-CEDICT layout *)

Section Layout.

Lemma cut_inv sep s : forall h t,
  Py.cut sep s = (h, Some t) -> s = h ++ sep :: t /\ sep ∉ h.
Proof.
  induction s as [|c s IH]; intros h t Hcut; [discriminate|].
  simpl in Hcut. destruct (N.eqb_spec c sep) as [->|Hne].
  - injection Hcut as <- <-. split; [reflexivity|apply not_elem_of_nil].
  - destruct (Py.cut sep s) as [h' t'] eqn:Hs. injection Hcut as <- ->.
    destruct (IH h' t eq_refl) as [-> Hnot]. split; [reflexivity|].
    intros [?|?]%elem_of_cons; [congruence|contradiction].
Qed.

Lemma lstrip_by_nil p s :
  Py.lstrip_by p s = [] <-> Forall (fun c => p c = true) s.
Proof.
  induction s as [|c s IH]; simpl; [split; [constructor|reflexivity]|].
  destruct (p c) eqn:Hc.
  - rewrite IH. split; [now constructor|]. now intros [_ ?]%Forall_cons.
  - split; [discriminate|]. intros [? _]%Forall_cons. congruence.
Qed.

Lemma lstrip_by_head p s c s' :
  Py.lstrip_by p s = c :: s' -> p c = false.
Proof.
  induction s as [|x s IH]; simpl; [discriminate|].
  destruct (p x) eqn:Hx; [exact IH|]. now intros [= <- _].
Qed.

Lemma lstrip_by_keeps p c s : p c = false -> Py.lstrip_by p (c :: s) = c :: s.
Proof. intros Hc. simpl. now rewrite Hc. Qed.

(** [s.strip()] is empty exactly when [s] is all whitespace. *)
Lemma strip_nil s :
  Py.strip s = [] <-> Forall (fun c => Py.isspace c = true) s.
Proof.
  unfold Py.strip, Py.strip_by. split.
  - intros Hnil. apply (f_equal (@rev N)) in Hnil.
    rewrite rev_involutive in Hnil. simpl in Hnil.
    apply lstrip_by_nil in Hnil.
    destruct (Py.lstrip_by Py.isspace s) as [|c s'] eqn:Hl.
    + now apply lstrip_by_nil.
    + pose proof (lstrip_by_head _ _ _ _ Hl) as Hc.
      apply Forall_rev in Hnil. rewrite rev_involutive in Hnil.
      apply Forall_cons in Hnil as [? _]. congruence.
  - intros Hall. apply lstrip_by_nil in Hall. now rewrite Hall.
Qed.

Lemma strip_by_ends p a mid b :
  p a = false -> p b = false ->
  Py.strip_by p (a :: mid ++ [b]) = a :: mid ++ [b].
Proof.
  intros Ha Hb. unfold Py.strip_by.
  rewrite (lstrip_by_keeps p a _ Ha).
  replace (rev (a :: mid ++ [b])) with (b :: rev (a :: mid)).
  - rewrite (lstrip_by_keeps p b _ Hb).
    change (b :: rev (a :: mid)) with ([b] ++ rev (a :: mid)).
    now rewrite rev_app_distr, rev_involutive.
  - change (a :: mid ++ [b]) with ((a :: mid) ++ [b]).
    now rewrite rev_app_distr.
Qed.

Lemma split_absent sep s : sep ∉ s -> Py.split sep s = [s].
Proof.
  induction s as [|c s IH]; intros Hnot; [reflexivity|].
  simpl. destruct (N.eqb_spec c sep) as [->|Hne].
  - destruct Hnot. left.
  - rewrite IH; [reflexivity|]. intros Hin. apply Hnot. now right.
Qed.

Lemma split_first sep g rest :
  sep ∉ g -> Py.split sep (g ++ sep :: rest) = g :: Py.split sep rest.
Proof.
  induction g as [|c g IH]; intros Hnot; simpl.
  - now rewrite N.eqb_refl.
  - destruct (N.eqb_spec c sep) as [->|Hne].
    + destruct Hnot. left.
    + rewrite IH; [reflexivity|]. intros Hin. apply Hnot. now right.
Qed.

Lemma split_glosses sep glosses rest :
  Forall (fun g => sep ∉ g) glosses ->
  Py.split sep (concat (map (fun g => g ++ [sep]) glosses) ++ rest) =
  glosses ++ Py.split sep rest.
Proof.
  induction 1 as [|g glosses Hg Hall IH]; [reflexivity|].
  simpl. rewrite <- !app_assoc. simpl.
  now rewrite split_first, IH.
Qed.

Lemma words_from_word cur w rest :
  Forall (fun c => Py.isspace c = false) w ->
  Py.words_from cur (w ++ rest) = Py.words_from (rev w ++ cur) rest.
Proof.
  intros Hw. revert cur.
  induction Hw as [|c w Hc Hw IH]; intros cur; [reflexivity|].
  simpl. rewrite Hc, IH. now rewrite <- app_assoc.
Qed.

Lemma words_from_space cur c rest :
  cur ≠ [] -> Py.isspace c = true ->
  Py.words_from cur (c :: rest) = rev cur :: Py.words_from [] rest.
Proof. intros Hcur Hc. simpl. rewrite Hc. now destruct cur. Qed.

Lemma words_head trad simp :
  headword trad -> headword simp ->
  Py.words (trad ++ [c_space] ++ simp ++ [c_space]) = [trad; simp].
Proof.
  intros [Ht Htrad] [Hs Hsimp]. unfold Py.words.
  assert (Hrev : forall w : str, w ≠ [] -> rev w ++ [] ≠ []).
  { intros w Hw Hnil. rewrite app_nil_r in Hnil.
    apply (f_equal (@rev N)) in Hnil. now rewrite rev_involutive in Hnil. }
  change ([c_space] ++ simp ++ [c_space]) with (c_space :: simp ++ [c_space]).
  rewrite words_from_word by (eapply Forall_impl; [exact Htrad|]; now intros ? []).
  rewrite words_from_space by (auto using Hrev).
  rewrite words_from_word by (eapply Forall_impl; [exact Hsimp|]; now intros ? []).
  rewrite words_from_space by (auto using Hrev).
  simpl. now rewrite !app_nil_r, !rev_involutive.
Qed.

Lemma headword_no_bracket trad simp :
  headword trad -> headword simp ->
  c_open ∉ trad ++ [c_space] ++ simp ++ [c_space].
Proof.
  intros [_ Htrad] [_ Hsimp].
  rewrite !elem_of_app, !list_elem_of_singleton.
  rewrite Forall_forall in Htrad, Hsimp.
  intros [Hin|[Heq|[Hin|Heq]]]; try discriminate.
  - now destruct (Htrad _ Hin).
  - now destruct (Hsimp _ Hin).
Qed.

Lemma glosses_kept glosses :
  Forall gloss glosses ->
  map Py.strip (filter (fun d => Py.strip d ≠ []) glosses) = glosses.
Proof.
  induction 1 as [|g glosses (Hne & _ & Hstrip) Hall IH]; [reflexivity|].
  rewrite filter_cons_True by congruence.
  simpl. now rewrite IH, Hstrip.
Qed.

(** X21: a line in the CC-CEDICT layout is accepted, and its candidate has
    the headwords, the stripped pronunciation and the glosses of the line;
    the pronunciation may hold a [[] and the glosses brackets of both
    kinds. *)
Lemma parse_line_cedict trad simp pin glosses :
  headword trad -> Py.startswith c_hash trad = false ->
  headword simp ->
  c_close ∉ pin ->
  Forall gloss glosses ->
  parse_line (cedict_line trad simp pin glosses) =
  Some {| cand_traditional := trad; cand_simplified := simp;
          cand_pinyin := Py.strip pin; cand_definitions := glosses |}.
Proof.
  intros Htrad Hhash Hsimp Hpin Hgl. unfold parse_line.
  assert (Hstart : Py.startswith c_hash (cedict_line trad simp pin glosses)
                   = false).
  { destruct Htrad as [Hne _]. destruct trad; [contradiction|exact Hhash]. }
  rewrite Hstart.
  replace (cedict_line trad simp pin glosses)
    with ((trad ++ [c_space] ++ simp ++ [c_space]) ++ c_open ::
          (pin ++ c_close ::
           c_space :: (c_slash :: concat (map (fun g => g ++ [c_slash]) glosses))
           ++ [c_newline]))
    by (unfold cedict_line; now rewrite <- !app_assoc).
  rewrite split1_first by now apply headword_no_bracket.
  rewrite words_strip, words_head by assumption.
  rewrite split1_first by exact Hpin.
  unfold Py.strip_chars. rewrite strip_by_ends by reflexivity.
  change (c_space :: (c_slash :: concat (map (fun g => g ++ [c_slash]) glosses))
          ++ [c_newline])
    with ([c_space] ++ c_slash ::
          concat (map (fun g => g ++ [c_slash]) glosses) ++ [c_newline]).
  rewrite split_first
    by (rewrite list_elem_of_singleton; discriminate).
  rewrite split_glosses
    by (eapply Forall_impl; [exact Hgl|]; now intros ? (_ & ? & _)).
  rewrite split_absent
    by (rewrite list_elem_of_singleton; discriminate).
  do 2 f_equal.
  rewrite filter_cons_False by (intros Hne; now apply Hne).
  rewrite filter_app, map_app, glosses_kept by exact Hgl.
  rewrite filter_cons_False by (intros Hne; now apply Hne).
  now rewrite filter_nil, app_nil_r.
Qed.

(** X22: every accepted line has a first [[] and a []] after it, and the
    pronunciation of its candidate is the stripped text between the two:
    it is empty exactly when that text is all whitespace. *)
Lemma parse_line_pinyin line c :
  parse_line line = Some c ->
  exists h p t,
    line = h ++ c_open :: p ++ c_close :: t /\ (c_open ∉ h) /\ (c_close ∉ p) /\
    cand_pinyin c = Py.strip p /\
    (cand_pinyin c = [] <-> Forall (fun x => Py.isspace x = true) p).
Proof.
  unfold parse_line, Py.split1.
  destruct (Py.startswith c_hash line); [discriminate|].
  destruct (Py.cut c_open line) as [h [rest|]] eqn:Hopen; [|discriminate].
  destruct (Py.words (Py.strip h)) as [|trad [|simp ws]]; try discriminate.
  destruct (Py.cut c_close rest) as [p [t|]] eqn:Hclose; [|discriminate].
  intros [= <-]. simpl.
  destruct (cut_inv _ _ _ _ Hopen) as [-> Hh].
  destruct (cut_inv _ _ _ _ Hclose) as [-> Hp].
  exists h, p, t. repeat split; try assumption; apply strip_nil.
Qed.

End Layout.

(** ** The loop as a fold over the accepted lines *)

Section Fold.

Variable frequency_map : gmap str Z.

Lemma parse_loop_capped m lines : forall d count,
  m ≠ 0 ->
  parse_loop frequency_map (Some m) lines d count =
  fold_left (merge_candidate frequency_map)
    (take (Z.to_nat (Z.max 1 (m - count))) (accepted lines)) d.
Proof.
  intros d count Hm. revert d count.
  induction lines as [|line rest IH]; intros d count.
  - simpl. now rewrite take_nil.
  - unfold accepted. simpl. fold (accepted rest).
    destruct (parse_line line) as [c|] eqn:Hline; [|apply IH].
    destruct (Z.to_nat (Z.max 1 (m - count))) as [|k] eqn:Hk; [lia|].
    simpl. unfold cap_reached.
    destruct (Z.eqb_spec m 0) as [?|_]; [contradiction|]. simpl.
    destruct (Z.leb_spec m (count + 1)) as [Hle|Hgt].
    + replace k with 0%nat by lia. now rewrite take_0.
    + rewrite IH. do 2 f_equal. lia.
Qed.

Lemma parse_loop_uncapped max_entries lines : forall d count,
  (forall n, cap_reached max_entries n = false) ->
  parse_loop frequency_map max_entries lines d count =
  fold_left (merge_candidate frequency_map) (accepted lines) d.
Proof.
  intros d count Hcap. revert d count.
  induction lines as [|line rest IH]; intros d count; [reflexivity|].
  unfold accepted. simpl. fold (accepted rest).
  destruct (parse_line line) as [c|]; [|apply IH].
  simpl. rewrite Hcap. apply IH.
Qed.

Lemma parse_cedict_entries_read max_entries lines :
  parse_cedict lines frequency_map max_entries =
  fold_left (merge_candidate frequency_map)
    (take (entries_read max_entries (length (accepted lines)))
       (accepted lines)) ∅.
Proof.
  unfold parse_cedict, entries_read.
  destruct max_entries as [m|].
  - destruct (Z.eqb_spec m 0) as [->|Hm].
    + rewrite firstn_all. apply parse_loop_uncapped. reflexivity.
    + rewrite parse_loop_capped by exact Hm. rewrite Z.sub_0_r.
      f_equal. destruct (Nat.min_spec (Z.to_nat (Z.max 1 m))
                           (length (accepted lines))) as [[_ ->]|[Hle ->]].
      * reflexivity.
      * now rewrite firstn_all, take_ge.
  - rewrite firstn_all. apply parse_loop_uncapped. reflexivity.
Qed.

(** What the fold stores under [k], from what [d] stores there. *)
Lemma fold_merge_lookup k cands : forall d,
  fold_left (merge_candidate frequency_map) cands d !! k =
  match d !! k with
  | Some e => Some (merge_all frequency_map e (with_key k cands))
  | None => entry_of frequency_map (with_key k cands)
  end.
Proof.
  induction cands as [|c cands IH]; intros d.
  - simpl. now destruct (d !! k).
  - cbn [fold_left]. rewrite IH. unfold with_key.
    destruct (decide (cand_traditional c = k)) as [<-|Hne].
    + rewrite filter_cons_True by reflexivity.
      rewrite merge_candidate_key.
      now destruct (d !! cand_traditional c).
    + rewrite filter_cons_False by exact Hne.
      now rewrite merge_candidate_other by congruence.
Qed.

Lemma merge_all_cons e c cs :
  merge_all frequency_map e (c :: cs) =
  merge_all frequency_map
    (merge_existing e c (candidate_frequency frequency_map c)) cs.
Proof. reflexivity. Qed.

Lemma merge_all_definitions e cs :
  definitions (merge_all frequency_map e cs) =
  definitions e ++ concat (map (fun c => marker c :: cand_definitions c) cs).
Proof.
  revert e. induction cs as [|c cs IH]; intros e.
  - simpl. now rewrite app_nil_r.
  - rewrite merge_all_cons, IH. cbn [map concat merge_existing definitions].
    unfold marker. now rewrite <- !app_assoc.
Qed.

Lemma merge_all_headwords e cs :
  traditional (merge_all frequency_map e cs) = traditional e /\
  simplified (merge_all frequency_map e cs) = simplified e.
Proof.
  revert e. induction cs as [|c cs IH]; intros e; [now split|].
  rewrite merge_all_cons.
  now destruct (IH (merge_existing e c
    (candidate_frequency frequency_map c))) as [-> ->].
Qed.

End Fold.

(** ** The cap on the entries read *)

Lemma fold_merge_size frequency_map cands : forall d,
  (size (fold_left (merge_candidate frequency_map) cands d)
   <= size d + length cands)%nat.
Proof.
  induction cands as [|c cands IH]; intros d; simpl; [lia|].
  etransitivity; [apply IH|].
  unfold merge_candidate.
  destruct (d !! cand_traditional c) as [e|] eqn:Hk.
  - rewrite map_size_insert_Some by eauto. lia.
  - rewrite map_size_insert_None by exact Hk. lia.
Qed.

(** X1: the result of [parse_cedict] is the merge, in input order, of the
    candidates of the first accepted lines only: all of them when
    [max_entries] is [None] or 0, and the first [max 1 m] of them when it
    is a non-zero [m] (a negative cap stops after one entry).  Rejected
    lines count for nothing. *)
Theorem parse_cedict_reads_first_entries lines frequency_map max_entries :
  parse_cedict lines frequency_map max_entries =
  fold_left (merge_candidate frequency_map)
    (take (entries_read max_entries (length (accepted lines)))
       (accepted lines)) ∅ /\
  entries_read None (length (accepted lines)) = length (accepted lines) /\
  entries_read (Some 0) (length (accepted lines)) = length (accepted lines) /\
  (forall m, m ≠ 0 ->
     entries_read (Some m) (length (accepted lines)) =
     Nat.min (Z.to_nat (Z.max 1 m)) (length (accepted lines))).
Proof.
  split; [apply parse_cedict_entries_read|].
  split; [reflexivity|]. split; [reflexivity|].
  intros m Hm. unfold entries_read.
  now destruct (Z.eqb_spec m 0).
Qed.

(** X2: the mapping never has more records than entries were read: at
    most [m] for a positive cap [m], and never more than there are
    accepted lines. *)
Theorem parse_cedict_size_bound lines frequency_map max_entries :
  (size (parse_cedict lines frequency_map max_entries)
   <= entries_read max_entries (length (accepted lines)))%nat /\
  (size (parse_cedict lines frequency_map max_entries)
   <= length (accepted lines))%nat /\
  (forall m, 0 < m -> max_entries = Some m ->
     Z.of_nat (size (parse_cedict lines frequency_map max_entries)) <= m).
Proof.
  assert (Hsize : (size (parse_cedict lines frequency_map max_entries)
                   <= entries_read max_entries (length (accepted lines)))%nat).
  { rewrite parse_cedict_entries_read.
    etransitivity; [apply fold_merge_size|].
    rewrite map_size_empty, length_take. lia. }
  split; [exact Hsize|]. split.
  - etransitivity; [exact Hsize|]. unfold entries_read.
    destruct max_entries as [m|]; [|lia]. destruct (m =? 0); lia.
  - intros m Hm ->. unfold entries_read in Hsize.
    destruct (Z.eqb_spec m 0); lia.
Qed.

Lemma parse_cedict_size_bound_witness :
  Z.of_nat
    (size (parse_cedict [zhongguo1; lit "B b [bi3] /two/"; lit "C c [x] /y/"]
             ∅ (Some 2))) <= 2.
Proof.
  exact (proj2 (proj2 (parse_cedict_size_bound
                         [zhongguo1; lit "B b [bi3] /two/"; lit "C c [x] /y/"]
                         ∅ (Some 2))) 2 eq_refl eq_refl).
Defined.

(** ** Records as functions of the lines of their key *)

Lemma with_key_nil_iff k cs :
  with_key k cs = [] <-> k ∉ cand_traditional <$> cs.
Proof.
  unfold with_key. induction cs as [|c cs IH]; simpl.
  - split; [intros _; apply not_elem_of_nil|reflexivity].
  - rewrite not_elem_of_cons.
    destruct (decide (cand_traditional c = k)) as [Heq|Hne].
    + rewrite filter_cons_True by exact Heq.
      split; [discriminate|]. intros [Hk _]. destruct Hk. now symmetry.
    + rewrite filter_cons_False by exact Hne. rewrite IH.
      split; [intros ?; split; [intros ->; now destruct Hne|assumption]
            |now intros [_ ?]].
Qed.

Lemma with_key_idemp k cs : with_key k (with_key k cs) = with_key k cs.
Proof.
  unfold with_key. induction cs as [|c cs IH]; [reflexivity|].
  destruct (decide (cand_traditional c = k)) as [Heq|Hne].
  - rewrite !filter_cons_True by exact Heq. now rewrite IH.
  - now rewrite filter_cons_False by exact Hne.
Qed.

Lemma accepted_with_key k lines :
  accepted
    (filter (fun line => cand_traditional <$> parse_line line = Some k) lines)
  = with_key k (accepted lines).
Proof.
  unfold accepted, with_key. induction lines as [|line lines IH];
    [reflexivity|].
  cbn [omap list_omap]. destruct (parse_line line) as [c|] eqn:Hline.
  - destruct (decide (cand_traditional c = k)) as [Heq|Hne].
    + rewrite filter_cons_True by (rewrite Hline; simpl; congruence).
      rewrite filter_cons_True by exact Heq.
      cbn [omap list_omap]. rewrite Hline. f_equal. exact IH.
    + rewrite filter_cons_False by (rewrite Hline; simpl; congruence).
      rewrite filter_cons_False by exact Hne. exact IH.
  - rewrite filter_cons_False by (rewrite Hline; discriminate). exact IH.
Qed.

(** X3: when no cap stops the loop, the keys of the mapping are exactly
    the traditional forms of the accepted lines. *)
Theorem parse_cedict_keys lines frequency_map max_entries k :
  (forall n, cap_reached max_entries n = false) ->
  is_Some (parse_cedict lines frequency_map max_entries !! k) <->
  exists line c,
    line ∈ lines /\ parse_line line = Some c /\ cand_traditional c = k.
Proof.
  intros Hcap. unfold parse_cedict.
  rewrite parse_loop_uncapped by exact Hcap.
  rewrite fold_merge_lookup, lookup_empty.
  destruct (with_key k (accepted lines)) as [|c0 cs] eqn:Hk.
  - apply with_key_nil_iff in Hk. split; [intros []; discriminate|].
    intros (line & c & Hin & Hline & Hc). destruct Hk.
    apply list_elem_of_fmap. exists c. split; [now symmetry|].
    apply list_elem_of_omap. eauto.
  - split; [intros _|eauto].
    assert (Hin : c0 ∈ with_key k (accepted lines)) by (rewrite Hk; left).
    apply list_elem_of_filter in Hin as [Hc0 Hin].
    apply list_elem_of_omap in Hin as (line & Hin & Hline). eauto.
Qed.

Lemma parse_cedict_keys_witness :
  is_Some (parse_cedict [lit "# B b [x] /y/"; zhongguo1] ∅ None
             !! [0x4E2D; 0x570B]%N).
Proof.
  apply (parse_cedict_keys [lit "# B b [x] /y/"; zhongguo1] ∅ None);
    [reflexivity|].
  exists zhongguo1. eexists. split; [right; left|].
  split; [vm_compute; reflexivity|reflexivity].
Defined.

(** X4: when no cap stops the loop, a record is the same whether or not
    the lines of other keys are in the input: it is the record the lines
    of its own key give alone. *)
Theorem record_independent_of_other_keys lines frequency_map max_entries k :
  (forall n, cap_reached max_entries n = false) ->
  parse_cedict lines frequency_map max_entries !! k =
  parse_cedict
    (filter (fun line => cand_traditional <$> parse_line line = Some k) lines)
    frequency_map max_entries !! k.
Proof.
  intros Hcap. unfold parse_cedict.
  rewrite !parse_loop_uncapped by exact Hcap.
  rewrite !fold_merge_lookup, lookup_empty.
  now rewrite accepted_with_key, with_key_idemp.
Qed.

Lemma record_independent_of_other_keys_witness :
  parse_cedict [zhongguo1; lit "B b [bi3] /two/"; zhongguo2] ∅ None
    !! [0x4E2D; 0x570B]%N =
  parse_cedict [zhongguo1; zhongguo2] ∅ None !! [0x4E2D; 0x570B]%N.
Proof.
  exact (record_independent_of_other_keys
           [zhongguo1; lit "B b [bi3] /two/"; zhongguo2] ∅ None
           [0x4E2D; 0x570B]%N (fun _ => eq_refl)).
Defined.

(** X5: when no cap stops the loop, the record of a key that several
    accepted lines share, wherever they stand in the input, has the
    simplified form of the first of them, and its definitions are the
    first line's glosses followed, for each later line in order, by that
    line's marker and glosses. *)
Theorem record_of_many_lines lines frequency_map max_entries k c0 cs :
  (forall n, cap_reached max_entries n = false) ->
  with_key k (accepted lines) = c0 :: cs ->
  exists r,
    parse_cedict lines frequency_map max_entries !! k = Some r /\
    traditional r = k /\
    simplified r = cand_simplified c0 /\
    definitions r =
      cand_definitions c0
      ++ concat (map (fun c => marker c :: cand_definitions c) cs).
Proof.
  intros Hcap Hk. unfold parse_cedict.
  rewrite parse_loop_uncapped by exact Hcap.
  rewrite fold_merge_lookup, lookup_empty, Hk. eexists.
  split; [reflexivity|].
  destruct (merge_all_headwords frequency_map
              (new_entry c0 (candidate_frequency frequency_map c0)) cs)
    as [-> ->].
  rewrite merge_all_definitions. repeat split.
  assert (Hin : c0 ∈ with_key k (accepted lines)) by (rewrite Hk; left).
  now apply list_elem_of_filter in Hin as [Hc0 _].
Qed.

Lemma record_of_many_lines_witness :
  exists r,
    parse_cedict
      [lit "A a [x] /one/"; lit "B b [y] /other/"; lit "A a2 [x] /two/";
       lit "A a3 [z] /three/four/"] ∅ None !! lit "A" = Some r /\
    traditional r = lit "A" /\
    simplified r = lit "a" /\
    definitions r =
      [lit "one"; lit "[x]"; lit "two"; lit "[z]"; lit "three"; lit "four"].
Proof.
  exact (record_of_many_lines
           [lit "A a [x] /one/"; lit "B b [y] /other/"; lit "A a2 [x] /two/";
            lit "A a3 [z] /three/four/"] ∅ None (lit "A")
           {| cand_traditional := lit "A"; cand_simplified := lit "a";
              cand_pinyin := lit "x"; cand_definitions := [lit "one"] |}
           [ {| cand_traditional := lit "A"; cand_simplified := lit "a2";
                cand_pinyin := lit "x"; cand_definitions := [lit "two"] |};
             {| cand_traditional := lit "A"; cand_simplified := lit "a3";
                cand_pinyin := lit "z";
                cand_definitions := [lit "three"; lit "four"] |} ]
           (fun _ => eq_refl) eq_refl).
Defined.

(** ** Pronunciations and frequencies of merged records *)

Lemma merge_all_pinyin3 frequency_map e c2 c3 :
  cand_pinyin c2 ≠ pinyin e ->
  cand_pinyin c3 = pinyin e \/ cand_pinyin c3 = cand_pinyin c2 ->
  pinyin (merge_all frequency_map e [c2; c3]) =
  pinyin e ++ lit "; " ++ cand_pinyin c2 ++ lit "; " ++ cand_pinyin c3.
Proof.
  intros H2 H3. cbn [merge_all fold_left merge_existing pinyin].
  rewrite (bool_decide_eq_true_2 (cand_pinyin c2 ≠ pinyin e)) by exact H2.
  rewrite bool_decide_eq_true_2; [now rewrite <- !app_assoc|].
  intros Heq. apply (f_equal length) in Heq.
  rewrite !length_app in Heq. simpl in Heq.
  destruct H3 as [H3|H3]; rewrite H3 in Heq; lia.
Qed.

(** X6: the pronunciation of a line is compared with the whole pinyin
    stored so far, not with the pronunciations already in it: once two
    different pronunciations are stored, a third line repeating either of
    them has its pronunciation appended again. *)
Theorem repeated_pinyin_appended lines frequency_map max_entries k c1 c2 c3 :
  (forall n, cap_reached max_entries n = false) ->
  with_key k (accepted lines) = [c1; c2; c3] ->
  cand_pinyin c2 ≠ cand_pinyin c1 ->
  cand_pinyin c3 = cand_pinyin c1 \/ cand_pinyin c3 = cand_pinyin c2 ->
  exists r,
    parse_cedict lines frequency_map max_entries !! k = Some r /\
    pinyin r =
      cand_pinyin c1 ++ lit "; " ++ cand_pinyin c2 ++ lit "; "
      ++ cand_pinyin c3.
Proof.
  intros Hcap Hk H2 H3. unfold parse_cedict.
  rewrite parse_loop_uncapped by exact Hcap.
  rewrite fold_merge_lookup, lookup_empty, Hk. eexists.
  split; [reflexivity|]. cbn [entry_of].
  now rewrite merge_all_pinyin3.
Qed.

Lemma repeated_pinyin_appended_witness :
  exists r,
    parse_cedict [lit "A a [x] /one/"; lit "A a [y] /two/";
                  lit "A a [y] /three/"] ∅ None !! lit "A" = Some r /\
    pinyin r = lit "x; y; y".
Proof.
  refine (repeated_pinyin_appended
            [lit "A a [x] /one/"; lit "A a [y] /two/"; lit "A a [y] /three/"]
            ∅ None (lit "A")
            {| cand_traditional := lit "A"; cand_simplified := lit "a";
               cand_pinyin := lit "x"; cand_definitions := [lit "one"] |}
            {| cand_traditional := lit "A"; cand_simplified := lit "a";
               cand_pinyin := lit "y"; cand_definitions := [lit "two"] |}
            {| cand_traditional := lit "A"; cand_simplified := lit "a";
               cand_pinyin := lit "y"; cand_definitions := [lit "three"] |}
            (fun _ => eq_refl) eq_refl _ (or_intror eq_refl)).
  vm_compute. discriminate.
Defined.

Lemma scored_headword_frequency lines frequency_map max_entries k v r :
  frequency_map !! k = Some v -> v ≠ 0 ->
  parse_cedict lines frequency_map max_entries !! k = Some r ->
  frequency r = Some v.
Proof.
  intros Hv Hnz. revert r. unfold parse_cedict.
  apply (parse_loop_preserves frequency_map max_entries
           (fun d => forall r, d !! k = Some r -> frequency r = Some v)
           (fun _ => True)).
  - intros d c _ Hd r.
    destruct (decide (k = cand_traditional c)) as [->|Hne].
    + rewrite merge_candidate_key. intros [= <-].
      assert (Hf : lookup_frequency frequency_map (cand_traditional c)
                     (cand_simplified c) = Some v).
      { unfold lookup_frequency, Py.or_, Py.truthy. rewrite Hv.
        now destruct (Z.eqb_spec v 0). }
      rewrite Hf.
      destruct (d !! cand_traditional c) as [e|] eqn:He; [|reflexivity].
      cbn [merge_existing frequency]. rewrite (Hd e eq_refl).
      unfold takes_frequency. now rewrite Z.ltb_irrefl, andb_false_r.
    + rewrite merge_candidate_other by exact Hne. apply Hd.
  - intros; exact I.
  - intros r. now rewrite lookup_empty.
Qed.

(** X7: when the frequency map gives the traditional form [k] a score
    other than 0, every record stored under [k] has that score as its
    frequency, whatever lines were merged into it and whatever their
    simplified forms are. *)
Theorem frequency_of_scored_headword lines frequency_map max_entries k v r :
  frequency_map !! k = Some v -> v ≠ 0 ->
  parse_cedict lines frequency_map max_entries !! k = Some r ->
  frequency r = Some v.
Proof. apply scored_headword_frequency. Qed.

Lemma frequency_of_scored_headword_witness :
  exists r,
    parse_cedict [lit "A a [x] /one/"; lit "A b [y] /two/"]
      {[ lit "A" := 7; lit "b" := 9000 ]} None !! lit "A" = Some r /\
    frequency r = Some 7.
Proof.
  destruct (parse_cedict [lit "A a [x] /one/"; lit "A b [y] /two/"]
              {[ lit "A" := 7; lit "b" := 9000 ]} None !! lit "A")
    as [r|] eqn:Hr; [|vm_compute in Hr; discriminate].
  exists r. split; [reflexivity|].
  refine (frequency_of_scored_headword _ _ None (lit "A") 7 r _ _ Hr).
  - vm_compute. reflexivity.
  - discriminate.
Defined.

Lemma merge_all_frequency_le frequency_map e cs :
  frequency_le (frequency e) (frequency (merge_all frequency_map e cs)).
Proof.
  revert e. induction cs as [|c cs IH]; intros e;
    [apply frequency_le_refl|].
  rewrite merge_all_cons.
  eapply frequency_le_trans; [apply merge_existing_frequency_le|apply IH].
Qed.

Lemma merge_all_frequency_ge frequency_map e cs c :
  c ∈ cs -> Py.truthy (candidate_frequency frequency_map c) = true ->
  frequency_le (candidate_frequency frequency_map c)
    (frequency (merge_all frequency_map e cs)).
Proof.
  revert e. induction cs as [|c' cs IH]; intros e Hin Htrue;
    [now apply elem_of_nil in Hin|].
  rewrite merge_all_cons.
  apply elem_of_cons in Hin as [->|Hin]; [|now apply IH].
  eapply frequency_le_trans; [|apply merge_all_frequency_le].
  simpl. unfold takes_frequency. rewrite Htrue. simpl.
  destruct (candidate_frequency frequency_map c') as [f|]; [|exact I].
  destruct (frequency e) as [old|]; simpl; [|lia].
  destruct (Z.ltb_spec old f); simpl; lia.
Qed.

Lemma merge_all_frequency_from frequency_map e cs :
  frequency (merge_all frequency_map e cs) = frequency e \/
  exists c, c ∈ cs /\
    Py.truthy (candidate_frequency frequency_map c) = true /\
    frequency (merge_all frequency_map e cs) =
    candidate_frequency frequency_map c.
Proof.
  revert e. induction cs as [|c cs IH]; intros e; [now left|].
  rewrite merge_all_cons.
  destruct (IH (merge_existing e c (candidate_frequency frequency_map c)))
    as [Heq|(c' & Hin & Htrue & Heq)].
  - rewrite Heq. simpl.
    destruct (takes_frequency _ (frequency e)) eqn:Htake; [|now left].
    right. exists c. split; [left|]. split; [|reflexivity].
    unfold takes_frequency in Htake. now apply andb_prop in Htake as [? _].
  - right. exists c'. split; [now right|]. now split.
Qed.

(** X8: "keep the higher frequency": when no cap stops the loop, the
    frequency of a record is the greatest among the frequency looked up
    for the first line of its key and the frequencies other than 0 looked
    up for the later lines of that key (unset being below every score). *)
Theorem frequency_is_highest lines frequency_map max_entries k c0 cs :
  (forall n, cap_reached max_entries n = false) ->
  with_key k (accepted lines) = c0 :: cs ->
  exists r,
    parse_cedict lines frequency_map max_entries !! k = Some r /\
    frequency_le (candidate_frequency frequency_map c0) (frequency r) /\
    (forall c, c ∈ cs ->
       Py.truthy (candidate_frequency frequency_map c) = true ->
       frequency_le (candidate_frequency frequency_map c) (frequency r)) /\
    (frequency r = candidate_frequency frequency_map c0 \/
     exists c, c ∈ cs /\
       Py.truthy (candidate_frequency frequency_map c) = true /\
       frequency r = candidate_frequency frequency_map c).
Proof.
  intros Hcap Hk. unfold parse_cedict.
  rewrite parse_loop_uncapped by exact Hcap.
  rewrite fold_merge_lookup, lookup_empty, Hk. eexists.
  split; [reflexivity|]. split; [|split].
  - apply (merge_all_frequency_le frequency_map
             (new_entry c0 (candidate_frequency frequency_map c0))).
  - intros c Hin Htrue. now apply merge_all_frequency_ge.
  - apply (merge_all_frequency_from frequency_map
             (new_entry c0 (candidate_frequency frequency_map c0))).
Qed.

Lemma frequency_is_highest_witness :
  exists r,
    parse_cedict [lit "A a [x] /one/"; lit "A b [y] /two/";
                  lit "A c [z] /three/"]
      {[ lit "a" := 5; lit "b" := 9; lit "c" := 7 ]} None !! lit "A"
    = Some r /\
    frequency r = Some 9.
Proof.
  pose (fm := ({[ lit "a" := 5; lit "b" := 9; lit "c" := 7 ]} : gmap str Z)).
  destruct (frequency_is_highest
              [lit "A a [x] /one/"; lit "A b [y] /two/"; lit "A c [z] /three/"]
              fm None (lit "A")
              {| cand_traditional := lit "A"; cand_simplified := lit "a";
                 cand_pinyin := lit "x"; cand_definitions := [lit "one"] |}
              [ {| cand_traditional := lit "A"; cand_simplified := lit "b";
                   cand_pinyin := lit "y"; cand_definitions := [lit "two"] |};
                {| cand_traditional := lit "A"; cand_simplified := lit "c";
                   cand_pinyin := lit "z";
                   cand_definitions := [lit "three"] |} ]
              (fun _ => eq_refl) eq_refl) as (r & Hr & _).
  exists r. split; [exact Hr|].
  vm_compute in Hr. injection Hr as <-. reflexivity.
Defined.

(** ** Records only grow *)

Lemma merge_candidate_grows frequency_map d c k r :
  d !! k = Some r ->
  exists r' more tail,
    merge_candidate frequency_map d c !! k = Some r' /\
    definitions r' = definitions r ++ more /\
    pinyin r' = pinyin r ++ tail.
Proof.
  intros Hk. destruct (decide (k = cand_traditional c)) as [->|Hne].
  - rewrite merge_candidate_key, Hk. eexists.
    exists (marker c :: cand_definitions c).
    exists (if bool_decide (cand_pinyin c ≠ pinyin r)
            then lit "; " ++ cand_pinyin c else []).
    split; [reflexivity|]. split.
    + simpl. now rewrite <- app_assoc.
    + simpl. destruct (bool_decide _); [reflexivity|now rewrite app_nil_r].
  - rewrite merge_candidate_other by exact Hne.
    exists r, [], []. now rewrite !app_nil_r.
Qed.

(** X9: nothing is ever taken out of a record: from any point of the loop
    on, the record of a key stays in the mapping, its definitions keep
    what they held as a prefix, and so does its pinyin. *)
Theorem records_only_grow frequency_map max_entries lines d count k r :
  d !! k = Some r ->
  exists r' more tail,
    parse_loop frequency_map max_entries lines d count !! k = Some r' /\
    definitions r' = definitions r ++ more /\
    pinyin r' = pinyin r ++ tail.
Proof.
  intros Hk.
  apply (parse_loop_preserves frequency_map max_entries
           (fun d' => exists r' more tail,
              d' !! k = Some r' /\
              definitions r' = definitions r ++ more /\
              pinyin r' = pinyin r ++ tail)
           (fun _ => True)).
  - intros d' c _ (r1 & more1 & tail1 & Hr1 & Hd1 & Hp1).
    destruct (merge_candidate_grows frequency_map d' c k r1 Hr1)
      as (r2 & more2 & tail2 & Hr2 & Hd2 & Hp2).
    exists r2, (more1 ++ more2), (tail1 ++ tail2).
    split; [exact Hr2|].
    rewrite Hd2, Hd1, Hp2, Hp1. now rewrite !app_assoc.
  - intros; exact I.
  - exists r, [], []. now rewrite !app_nil_r.
Qed.

Lemma records_only_grow_witness :
  let stored := {| traditional := lit "A"; simplified := lit "a";
                   pinyin := lit "x"; definitions := [lit "one"];
                   frequency := None |} in
  exists r' more tail,
    parse_loop ∅ None [lit "B b [y] /two/"; lit "A a [z] /three/"]
      {[ lit "A" := stored ]} 0 !! lit "A" = Some r' /\
    definitions r' = [lit "one"] ++ more /\
    pinyin r' = lit "x" ++ tail.
Proof.
  intros stored.
  exact (records_only_grow ∅ None [lit "B b [y] /two/"; lit "A a [z] /three/"]
           {[ lit "A" := stored ]} 0 (lit "A") stored
           (lookup_singleton_eq (lit "A") stored)).
Defined.

(** ** What the text operations keep *)

Section Strip.

Variable p : char -> bool.

Lemma lstrip_by_suffix s :
  exists w, s = w ++ Py.lstrip_by p s /\ Forall (fun c => p c = true) w.
Proof.
  induction s as [|c s (w & Hs & Hw)]; [now exists []|].
  simpl. destruct (p c) eqn:Hc.
  - exists (c :: w). split; [simpl; now f_equal|now constructor].
  - now exists [].
Qed.

Lemma lstrip_by_fix s :
  (forall c s', s = c :: s' -> p c = false) -> Py.lstrip_by p s = s.
Proof.
  destruct s as [|c s]; [reflexivity|].
  intros Hhead. simpl. now rewrite (Hhead c s eq_refl).
Qed.

Lemma lstrip_by_idemp s : Py.lstrip_by p (Py.lstrip_by p s) = Py.lstrip_by p s.
Proof.
  apply lstrip_by_fix. intros c s' Hs. eapply lstrip_by_head, Hs.
Qed.

Lemma strip_by_infix s :
  exists w1 w2,
    s = w1 ++ Py.strip_by p s ++ w2 /\
    Forall (fun c => p c = true) w1 /\ Forall (fun c => p c = true) w2.
Proof.
  destruct (lstrip_by_suffix s) as (w1 & Hs & Hw1).
  destruct (lstrip_by_suffix (rev (Py.lstrip_by p s))) as (w & Hr & Hw).
  exists w1, (rev w). split; [|split; [exact Hw1|now apply Forall_rev]].
  unfold Py.strip_by. rewrite <- rev_app_distr, <- Hr, rev_involutive.
  exact Hs.
Qed.

Lemma strip_by_elem s x : x ∈ Py.strip_by p s -> x ∈ s.
Proof.
  destruct (strip_by_infix s) as (w1 & w2 & Hs & _).
  intros Hx. rewrite Hs, !elem_of_app. auto.
Qed.

Lemma lstrip_by_drop c s : p c = true -> Py.lstrip_by p (c :: s) = Py.lstrip_by p s.
Proof. intros Hc. simpl. now rewrite Hc. Qed.

(** [strip] leaves nothing more to strip. *)
Lemma strip_by_idemp s : Py.strip_by p (Py.strip_by p s) = Py.strip_by p s.
Proof.
  unfold Py.strip_by.
  destruct (Py.lstrip_by p (rev (Py.lstrip_by p s))) as [|c v] eqn:Hv;
    [reflexivity|].
  pose proof (lstrip_by_head _ _ _ _ Hv) as Hc.
  destruct (lstrip_by_suffix (rev (Py.lstrip_by p s))) as (w & Hr & Hw).
  rewrite Hv in Hr.
  assert (Hu : Py.lstrip_by p s = rev (c :: v) ++ rev w).
  { rewrite <- rev_app_distr, <- Hr. now rewrite rev_involutive. }
  assert (Hfix : Py.lstrip_by p (rev (c :: v)) = rev (c :: v)).
  { apply lstrip_by_fix. intros x t Ht.
    apply (lstrip_by_head p s x (t ++ rev w)). now rewrite Hu, Ht. }
  rewrite Hfix, rev_involutive.
  now rewrite (lstrip_by_keeps p c v Hc).
Qed.

Lemma lstrip_by_app s t :
  Py.lstrip_by p s ≠ [] -> Py.lstrip_by p (s ++ t) = Py.lstrip_by p s ++ t.
Proof.
  induction s as [|c s IH]; simpl; [now intros []|].
  destruct (p c); [exact IH|reflexivity].
Qed.

Lemma lstrip_by_all s t :
  Py.lstrip_by p s = [] -> Py.lstrip_by p (s ++ t) = Py.lstrip_by p t.
Proof.
  induction s as [|c s IH]; simpl; [reflexivity|].
  destruct (p c); [exact IH|discriminate].
Qed.

(** A trailing character that [strip] removes makes no difference. *)
Lemma strip_by_snoc s c :
  p c = true -> Py.strip_by p (s ++ [c]) = Py.strip_by p s.
Proof.
  intros Hc. unfold Py.strip_by.
  destruct (Py.lstrip_by p s) as [|x u] eqn:Hs.
  - rewrite lstrip_by_all by exact Hs. simpl. now rewrite Hc.
  - rewrite lstrip_by_app by (rewrite Hs; discriminate).
    rewrite Hs, rev_app_distr. change (rev [c]) with [c].
    change ([c] ++ rev (x :: u)) with (c :: rev (x :: u)).
    now rewrite lstrip_by_drop by exact Hc.
Qed.

End Strip.

Section Pieces.

Lemma elem_of_rev (x : char) (l : str) : x ∈ rev l -> x ∈ l.
Proof. rewrite !list_elem_of_In. apply in_rev. Qed.

Lemma words_from_nonspace s : forall cur w,
  Forall (fun x => Py.isspace x = false) cur ->
  w ∈ Py.words_from cur s ->
  w ≠ [] /\ Forall (fun x => Py.isspace x = false) w.
Proof.
  induction s as [|c s IH]; intros cur w Hcur Hw; simpl in Hw.
  - destruct cur as [|x cur]; [now apply elem_of_nil in Hw|].
    apply list_elem_of_singleton in Hw as ->. split.
    + intros Hnil. apply (f_equal (@rev N)) in Hnil.
      now rewrite rev_involutive in Hnil.
    + now apply Forall_rev.
  - destruct (Py.isspace c) eqn:Hc.
    + destruct cur as [|x cur]; [now apply (IH [])|].
      apply elem_of_cons in Hw as [->|Hw]; [|now apply (IH [])].
      split.
      * intros Hnil. apply (f_equal (@rev N)) in Hnil.
        now rewrite rev_involutive in Hnil.
      * now apply Forall_rev.
    + apply (IH (c :: cur)); [now constructor|exact Hw].
Qed.

Lemma words_from_elem s : forall cur w x,
  w ∈ Py.words_from cur s -> x ∈ w -> x ∈ cur \/ x ∈ s.
Proof.
  induction s as [|c s IH]; intros cur w x Hw Hx; simpl in Hw.
  - destruct cur as [|y cur]; [now apply elem_of_nil in Hw|].
    apply list_elem_of_singleton in Hw as ->. left.
    now apply elem_of_rev.
  - destruct (Py.isspace c).
    + destruct cur as [|y cur].
      * destruct (IH [] w x Hw Hx) as [?|?]; [now left|right; now right].
      * apply elem_of_cons in Hw as [->|Hw].
        -- left. now apply elem_of_rev.
        -- destruct (IH [] w x Hw Hx) as [Hnil|?]; [|right; now right].
           now apply elem_of_nil in Hnil.
    + destruct (IH (c :: cur) w x Hw Hx) as [[->|?]%elem_of_cons|?].
      * right. left.
      * now left.
      * right. now right.
Qed.

Lemma split_nonempty sep s : Py.split sep s ≠ [].
Proof.
  destruct s as [|c s]; simpl; [discriminate|].
  destruct (c =? sep)%N; [discriminate|].
  now destruct (Py.split sep s).
Qed.

Lemma split_piece sep s : forall g,
  g ∈ Py.split sep s -> (sep ∉ g) /\ forall x, x ∈ g -> x ∈ s.
Proof.
  induction s as [|c s IH]; intros g Hg; simpl in Hg.
  - apply list_elem_of_singleton in Hg as ->.
    split; [apply not_elem_of_nil|auto].
  - destruct (N.eqb_spec c sep) as [->|Hne].
    + apply elem_of_cons in Hg as [->|Hg].
      * split; [apply not_elem_of_nil|]. intros x Hx.
        now apply elem_of_nil in Hx.
      * destruct (IH g Hg) as [Hsep Hsub].
        split; [exact Hsep|]. intros x Hx. right. now apply Hsub.
    + destruct (Py.split sep s) as [|q qs] eqn:Hsplit.
      * now destruct (split_nonempty sep s).
      * apply elem_of_cons in Hg as [->|Hg].
        -- destruct (IH q) as [Hsep Hsub]; [left|]. split.
           ++ intros [?|?]%elem_of_cons; [congruence|contradiction].
           ++ intros x [->|Hx]%elem_of_cons; [left|right; now apply Hsub].
        -- destruct (IH g) as [Hsep Hsub]; [now right|].
           split; [exact Hsep|]. intros x Hx. right. now apply Hsub.
Qed.

End Pieces.

Lemma parse_line_shape line c :
  parse_line line = Some c ->
  headword (cand_traditional c) /\
  headword (cand_simplified c) /\
  Py.strip (cand_pinyin c) = cand_pinyin c /\
  (c_close ∉ cand_pinyin c) /\
  Forall gloss (cand_definitions c).
Proof.
  unfold parse_line, Py.split1.
  destruct (Py.startswith c_hash line); [discriminate|].
  destruct (Py.cut c_open line) as [h [rest|]] eqn:Hopen; [|discriminate].
  destruct (Py.words (Py.strip h)) as [|trad [|simp ws]] eqn:Hwords;
    try discriminate.
  destruct (Py.cut c_close rest) as [pin [u|]] eqn:Hclose; [|discriminate].
  intros [= <-]. simpl.
  destruct (cut_inv _ _ _ _ Hopen) as [-> Hh].
  destruct (cut_inv _ _ _ _ Hclose) as [-> Hp].
  assert (Hhead : forall w, w ∈ Py.words (Py.strip h) -> headword w).
  { intros w Hw.
    destruct (words_from_nonspace _ [] w (Forall_nil_2 _) Hw) as [Hne Hsp].
    split; [exact Hne|]. apply Forall_forall. intros x Hx.
    split; [now apply (proj1 (Forall_forall _ _) Hsp)|].
    intros ->. apply Hh.
    destruct (words_from_elem _ [] w _ Hw Hx) as [Hnil|Hin];
      [now apply elem_of_nil in Hnil|].
    now apply strip_by_elem in Hin. }
  split; [apply Hhead; rewrite Hwords; left|].
  split; [apply Hhead; rewrite Hwords; right; left|].
  split; [apply strip_by_idemp|].
  split; [intros Hin; apply Hp; now apply strip_by_elem in Hin|].
  apply Forall_forall. intros d Hd.
  apply list_elem_of_fmap in Hd as (g & -> & Hg).
  apply list_elem_of_filter in Hg as [Hne Hg].
  apply split_piece in Hg as [Hsep _].
  split; [exact Hne|]. split; [|apply strip_by_idemp].
  intros Hin. apply Hsep. now apply strip_by_elem in Hin.
Qed.

(** X10: every candidate the parser yields has two headwords that are
    non-empty and free of whitespace and of [[], a pronunciation with no
    whitespace at its ends and no []], and glosses that are non-empty, free
    of [/] and without whitespace at their ends. *)
Theorem candidate_shape line c :
  parse_line line = Some c ->
  headword (cand_traditional c) /\
  headword (cand_simplified c) /\
  Py.strip (cand_pinyin c) = cand_pinyin c /\
  (c_close ∉ cand_pinyin c) /\
  Forall gloss (cand_definitions c).
Proof. apply parse_line_shape. Qed.

Lemma candidate_shape_witness :
  headword [0x4E2D; 0x570B]%N /\ Forall gloss [lit "China"; lit "Middle Kingdom"].
Proof.
  destruct (candidate_shape zhongguo1
              {| cand_traditional := [0x4E2D; 0x570B]%N;
                 cand_simplified := [0x4E2D; 0x56FD]%N;
                 cand_pinyin := lit "Zhong1 guo2";
                 cand_definitions := [lit "China"; lit "Middle Kingdom"] |})
    as (Ht & _ & _ & _ & Hg).
  - vm_compute. reflexivity.
  - split; [exact Ht|exact Hg].
Defined.

(** ** Text after the last field *)

Section Trailing.

Lemma space_not_special c :
  Py.isspace c = true ->
  c ≠ c_hash /\ c ≠ c_open /\ c ≠ c_close /\ c ≠ c_slash.
Proof.
  intros Hc. repeat split; intros ->; vm_compute in Hc; discriminate.
Qed.

Lemma cut_snoc sep s c :
  c ≠ sep ->
  Py.cut sep (s ++ [c]) =
  match Py.cut sep s with
  | (h, Some t) => (h, Some (t ++ [c]))
  | (h, None) => (h ++ [c], None)
  end.
Proof.
  intros Hc. induction s as [|x s IH]; simpl.
  - destruct (N.eqb_spec c sep); [contradiction|reflexivity].
  - destruct (x =? sep)%N; [reflexivity|].
    rewrite IH. now destruct (Py.cut sep s) as [h [t|]].
Qed.

Lemma split_snoc sep s c :
  c ≠ sep ->
  exists init last,
    Py.split sep s = init ++ [last] /\
    Py.split sep (s ++ [c]) = init ++ [last ++ [c]].
Proof.
  intros Hc. induction s as [|x s (init & last & Hs & Hsc)]; simpl.
  - exists [], []. split; [reflexivity|].
    destruct (N.eqb_spec c sep); [contradiction|reflexivity].
  - destruct (x =? sep)%N.
    + exists ([] :: init), last. now rewrite Hs, Hsc.
    + rewrite Hs, Hsc. destruct init as [|i0 init]; simpl.
      * now exists [], (x :: last).
      * now exists ((x :: i0) :: init), last.
Qed.

Lemma split_snoc_sep sep s :
  Py.split sep (s ++ [sep]) = Py.split sep s ++ [[]].
Proof.
  induction s as [|x s IH]; simpl.
  - now rewrite N.eqb_refl.
  - destruct (x =? sep)%N; [now rewrite IH|].
    rewrite IH. pose proof (split_nonempty sep s) as Hne.
    now destruct (Py.split sep s).
Qed.

Lemma glosses_of_slash_l u : glosses_of (c_slash :: u) = glosses_of u.
Proof.
  unfold glosses_of. simpl Py.split.
  now rewrite filter_cons_False by (intros Hne; now apply Hne).
Qed.

Lemma glosses_of_slash_r u : glosses_of (u ++ [c_slash]) = glosses_of u.
Proof.
  unfold glosses_of. rewrite split_snoc_sep, filter_app.
  rewrite (filter_cons_False _ []) by (intros Hne; now apply Hne).
  now rewrite filter_nil, app_nil_r.
Qed.

Lemma is_slash_true c : existsb (N.eqb c) [c_slash] = true -> c = c_slash.
Proof.
  simpl. rewrite orb_false_r. apply N.eqb_eq.
Qed.

Lemma glosses_of_lstrip u :
  glosses_of (Py.lstrip_by (fun c => existsb (N.eqb c) [c_slash]) u)
  = glosses_of u.
Proof.
  induction u as [|c u IH]; [reflexivity|].
  cbn [Py.lstrip_by].
  destruct (existsb (N.eqb c) [c_slash]) eqn:Hc; [|reflexivity].
  apply is_slash_true in Hc as ->. now rewrite glosses_of_slash_l.
Qed.

Lemma glosses_of_rstrip u :
  glosses_of
    (rev (Py.lstrip_by (fun c => existsb (N.eqb c) [c_slash]) (rev u)))
  = glosses_of u.
Proof.
  induction u as [|c u IH] using rev_ind; [reflexivity|].
  rewrite rev_app_distr. change (rev [c] ++ rev u) with (c :: rev u).
  cbn [Py.lstrip_by].
  destruct (existsb (N.eqb c) [c_slash]) eqn:Hc.
  - apply is_slash_true in Hc as ->. now rewrite IH, glosses_of_slash_r.
  - change (c :: rev u) with ([c] ++ rev u).
    now rewrite rev_app_distr, rev_involutive.
Qed.

(** The [strip('/')] of line 199 changes nothing in the glosses. *)
Lemma glosses_of_strip_chars u :
  glosses_of (Py.strip_chars [c_slash] u) = glosses_of u.
Proof.
  unfold Py.strip_chars, Py.strip_by.
  now rewrite glosses_of_rstrip, glosses_of_lstrip.
Qed.

Lemma glosses_of_snoc_space u c :
  Py.isspace c = true -> glosses_of (u ++ [c]) = glosses_of u.
Proof.
  intros Hc. destruct (space_not_special c Hc) as (_ & _ & _ & Hslash).
  destruct (split_snoc c_slash u c Hslash) as (init & last & Hu & Huc).
  unfold glosses_of. rewrite Hu, Huc, !filter_app, !map_app. f_equal.
  assert (Hstrip : Py.strip (last ++ [c]) = Py.strip last)
    by now apply strip_by_snoc.
  destruct (decide (Py.strip last = [])) as [Hnil|Hne].
  - rewrite !filter_cons_False; [reflexivity| |]; intros H; apply H; congruence.
  - rewrite !filter_cons_True by congruence. simpl. now rewrite Hstrip.
Qed.

Lemma parse_line_snoc_space line c :
  Py.isspace c = true -> parse_line (line ++ [c]) = parse_line line.
Proof.
  intros Hc.
  destruct (space_not_special c Hc) as (Hhash & Hopen & Hclose & _).
  unfold parse_line, Py.split1.
  assert (Hstart : Py.startswith c_hash (line ++ [c])
                   = Py.startswith c_hash line).
  { destruct line; [|reflexivity]. simpl.
    now destruct (N.eqb_spec c c_hash). }
  rewrite Hstart. destruct (Py.startswith c_hash line); [reflexivity|].
  rewrite cut_snoc by exact Hopen.
  destruct (Py.cut c_open line) as [h [t|]]; [|reflexivity].
  destruct (Py.words (Py.strip h)) as [|trad [|simp ws]]; try reflexivity.
  rewrite cut_snoc by exact Hclose.
  destruct (Py.cut c_close t) as [pin [u|]]; [|reflexivity].
  do 2 f_equal.
  change (glosses_of (Py.strip_chars [c_slash] (u ++ [c]))
          = glosses_of (Py.strip_chars [c_slash] u)).
  now rewrite !glosses_of_strip_chars, glosses_of_snoc_space.
Qed.

End Trailing.

(** X11: whitespace at the end of a line, its newline included, makes no
    difference to what the parser yields: a last line without a newline
    is read like any other. *)
Theorem trailing_whitespace_ignored line ws :
  Forall (fun c => Py.isspace c = true) ws ->
  parse_line (line ++ ws) = parse_line line.
Proof.
  intros Hws. revert line.
  induction Hws as [|c ws Hc Hws IH]; intros line.
  - now rewrite app_nil_r.
  - change (c :: ws) with ([c] ++ ws).
    now rewrite app_assoc, IH, parse_line_snoc_space.
Qed.

Lemma trailing_whitespace_ignored_witness :
  parse_line (lit "A a [x] /one/" ++ [c_space; 13%N; c_newline]) =
  parse_line (lit "A a [x] /one/").
Proof.
  apply trailing_whitespace_ignored.
  repeat constructor.
Defined.

(** X12: the fields of a line: with [h] the text before the first [[],
    [p] the text up to the next []] and [u] the rest, a line that does
    not start with [#] yields the first two tokens of [h], the stripped
    [p], and the non-blank stripped pieces of [u] between slashes; further
    tokens of [h] are ignored, brackets in [u] are kept, and slashes at
    the ends of [u] are not needed. *)
Theorem parse_line_fields h p u trad simp ws :
  c_open ∉ h -> c_close ∉ p ->
  Py.startswith c_hash h = false ->
  Py.words h = trad :: simp :: ws ->
  parse_line (h ++ c_open :: p ++ c_close :: u) =
  Some {| cand_traditional := trad; cand_simplified := simp;
          cand_pinyin := Py.strip p; cand_definitions := glosses_of u |}.
Proof.
  intros Hh Hp Hhash Hwords. unfold parse_line.
  assert (Hstart : Py.startswith c_hash (h ++ c_open :: p ++ c_close :: u)
                   = false).
  { destruct h; [discriminate Hwords|exact Hhash]. }
  rewrite Hstart, split1_first by exact Hh.
  rewrite words_strip, Hwords, split1_first by exact Hp.
  do 2 f_equal. apply glosses_of_strip_chars.
Qed.

Lemma parse_line_fields_witness :
  parse_line (lit "A a extra [x[1]] see [B] / one /two") =
  Some {| cand_traditional := lit "A"; cand_simplified := lit "a";
          cand_pinyin := lit "x[1";
          cand_definitions := [lit "] see [B]"; lit "one"; lit "two"] |}.
Proof.
  refine (parse_line_fields (lit "A a extra ") (lit "x[1")
            (lit "] see [B] / one /two") (lit "A") (lit "a") [lit "extra"]
            _ _ eq_refl eq_refl).
  - intros Hin%list_elem_of_In. vm_compute in Hin.
    repeat (destruct Hin as [Hin|Hin]; [discriminate|]). exact Hin.
  - intros Hin%list_elem_of_In. vm_compute in Hin.
    repeat (destruct Hin as [Hin|Hin]; [discriminate|]). exact Hin.
Defined.

(** ** Shape of the stored records *)

Lemma marker_nonempty c : marker c ≠ [].
Proof. discriminate. Qed.

(** X13: in the mapping [parse_cedict] returns, every key and every
    simplified form is non-empty and free of whitespace and of [[], and no
    record has an empty string among its definitions. *)
Theorem records_well_shaped lines frequency_map max_entries k r :
  parse_cedict lines frequency_map max_entries !! k = Some r ->
  headword k /\ headword (simplified r) /\
  Forall (fun d => d ≠ []) (definitions r).
Proof.
  revert k r. unfold parse_cedict.
  apply (parse_loop_preserves frequency_map max_entries
           (fun d => forall k r, d !! k = Some r ->
              headword k /\ headword (simplified r) /\
              Forall (fun d => d ≠ []) (definitions r))
           (fun c => headword (cand_traditional c) /\
                     headword (cand_simplified c) /\
                     Forall gloss (cand_definitions c))).
  - intros d c (Ht & Hs & Hg) Hd k r.
    assert (Hne : Forall (fun d => d ≠ []) (cand_definitions c)).
    { eapply Forall_impl; [exact Hg|]. now intros g [? _]. }
    destruct (decide (k = cand_traditional c)) as [->|Hk].
    + rewrite merge_candidate_key. intros [= <-].
      destruct (d !! cand_traditional c) as [e|] eqn:He;
        [|split; [exact Ht|split; [exact Hs|exact Hne]]].
      destruct (Hd _ _ He) as (_ & Hse & Hde).
      split; [exact Ht|]. split; [exact Hse|]. simpl.
      apply Forall_app. split; [|exact Hne].
      apply Forall_app. split; [exact Hde|].
      constructor; [discriminate|constructor].
    + rewrite merge_candidate_other by exact Hk. apply Hd.
  - intros line c _ Hline.
    destruct (parse_line_shape line c Hline) as (Ht & Hs & _ & _ & Hg).
    split; [exact Ht|split; [exact Hs|exact Hg]].
  - intros k r. now rewrite lookup_empty.
Qed.

Lemma records_well_shaped_witness :
  headword [0x4E2D; 0x570B]%N /\ headword [0x4E2D; 0x56FD]%N /\
  Forall (fun d => d ≠ [])
    [lit "China"; lit "Middle Kingdom"; lit "[Zhong1guo2]";
     lit "(old) Central Plain"].
Proof.
  exact (records_well_shaped [zhongguo1; zhongguo2] ∅ None
           [0x4E2D; 0x570B]%N
           {| traditional := [0x4E2D; 0x570B]%N;
              simplified := [0x4E2D; 0x56FD]%N;
              pinyin := lit "Zhong1 guo2; Zhong1guo2";
              definitions := [lit "China"; lit "Middle Kingdom";
                              lit "[Zhong1guo2]"; lit "(old) Central Plain"];
              frequency := None |} parse_cedict_zhongguo).
Defined.

(** ** Scores of the frequency table *)

Lemma count_rows_app rows1 rows2 :
  count_rows (rows1 ++ rows2) = count_rows rows1 + count_rows rows2.
Proof.
  induction rows1 as [|cells rows1 IH]; simpl; [reflexivity|].
  rewrite IH. lia.
Qed.

Lemma count_rows_nonneg rows : 0 <= count_rows rows.
Proof.
  induction rows as [|cells rows IH]; simpl; [lia|].
  destruct (counted cells); lia.
Qed.

Lemma position_in_page_bounds rows j cells :
  rows !! j = Some cells -> counted cells = true ->
  1 <= position_in_page rows j <= count_rows rows.
Proof.
  intros Hj Hc. unfold position_in_page.
  pose proof (f_equal count_rows (take_drop (S j) rows)) as Hrows.
  rewrite count_rows_app in Hrows.
  rewrite (take_S_r _ _ _ Hj), count_rows_app in Hrows |- *.
  cbn [count_rows] in Hrows |- *. rewrite Hc in Hrows |- *.
  pose proof (count_rows_nonneg (take j rows)).
  pose proof (count_rows_nonneg (drop (S j) rows)). lia.
Qed.

Lemma pages_score_is_None w pages : forall i0,
  pages_score i0 w pages = None ->
  forall i j rows, ~ accepted_at pages w i j rows.
Proof.
  induction pages as [|page rest IH]; intros i0 Hs i j rows
    [Hp (cells & Hj & Hhas)].
  - now rewrite lookup_nil in Hp.
  - cbn [pages_score] in Hs.
    destruct (from_option (fun rows => page_score i0 w rows 0) None page)
      eqn:Hpage; [discriminate|].
    destruct i as [|i].
    + injection Hp as ->. cbn [from_option] in Hpage.
      rewrite (page_score_is_None _ _ _ _ Hpage _ _ Hj) in Hhas.
      discriminate.
    + apply (IH _ Hs i j rows). split; [exact Hp|eauto].
Qed.

Lemma process_pages_app pages more : forall i frequency_map,
  process_pages i frequency_map (pages ++ more) =
  process_pages (i + Z.of_nat (length pages))
    (process_pages i frequency_map pages) more.
Proof.
  induction pages as [|page pages IH]; intros i fm.
  - simpl. now rewrite Z.add_0_r.
  - cbn [app process_pages length]. rewrite IH. f_equal. lia.
Qed.

Lemma regular_pages_lookup pages i rows :
  regular_pages pages -> pages !! i = Some (Some rows) ->
  (i < 10)%nat /\ count_rows rows <= 1000.
Proof.
  intros [Hlen Hall] Hp. split.
  - apply lookup_lt_Some in Hp. lia.
  - rewrite Forall_forall in Hall.
    apply (Hall (Some rows)). eapply list_elem_of_lookup_2, Hp.
Qed.

Lemma score_in_range pages w s :
  download_frequency_lists pages !! w = Some s ->
  s <= 10999 /\ (regular_pages pages -> 1000 <= s).
Proof.
  unfold download_frequency_lists.
  rewrite process_pages_lookup, lookup_empty. intros Hs.
  destruct (pages_score_inv w pages 0 s Hs)
    as (i & j & rows & [[Hp (cells & Hj & Hhas)] _] & ->).
  pose proof (position_in_page_bounds rows j cells Hj
                (row_has_counted _ _ Hhas)) as Hpos.
  unfold score_of, rank_of. split; [lia|].
  intros Hreg. destruct (regular_pages_lookup pages i rows Hreg Hp). lia.
Qed.

(** X14: every score of the frequency mapping is at most 10999, and for
    at most ten pages of at most 1000 counted rows each it is at least
    1000: such a mapping holds no score 0 and none below. *)
Theorem scores_in_range pages w s :
  download_frequency_lists pages !! w = Some s ->
  s <= 10999 /\ (regular_pages pages -> 1000 <= s).
Proof. apply score_in_range. Qed.

Lemma scores_in_range_witness :
  download_frequency_lists sample_pages !! [0x662F%N] = Some 9998 /\
  regular_pages sample_pages /\
  9998 <= 10999 /\ 1000 <= 9998.
Proof.
  assert (Hs : download_frequency_lists sample_pages !! [0x662F%N]
               = Some 9998) by (vm_compute; reflexivity).
  assert (Hreg : regular_pages sample_pages).
  { split; [simpl; lia|]. repeat constructor; vm_compute; discriminate. }
  destruct (scores_in_range sample_pages [0x662F%N] 9998 Hs) as [Hle Hge].
  split; [exact Hs|]. split; [exact Hreg|]. split; [exact Hle|].
  exact (Hge Hreg).
Defined.

(** X15: the first assignment wins: pages added after the others never
    change a score the mapping already holds. *)
Theorem later_pages_keep_scores pages more w s :
  download_frequency_lists pages !! w = Some s ->
  download_frequency_lists (pages ++ more) !! w = Some s.
Proof.
  unfold download_frequency_lists. intros Hs.
  now rewrite process_pages_app, process_pages_lookup, Hs.
Qed.

Lemma later_pages_keep_scores_witness :
  download_frequency_lists
    (sample_pages ++ [Some [[[0x662F%N]; [0x662F%N]]]]) !! [0x662F%N]
  = Some 9998.
Proof.
  apply (later_pages_keep_scores sample_pages).
  vm_compute. reflexivity.
Defined.

Lemma process_row_short i st cells :
  (length cells < 2)%nat -> process_row i st cells = st.
Proof.
  destruct st as [fm rc]. intros Hlen.
  destruct cells as [|c0 [|c1 cells]]; [reflexivity|reflexivity|].
  simpl in Hlen. lia.
Qed.

Lemma process_pages_ext pre : forall i frequency_map page page' post,
  (forall i' fm', process_page i' fm' page = process_page i' fm' page') ->
  process_pages i frequency_map (pre ++ page :: post) =
  process_pages i frequency_map (pre ++ page' :: post).
Proof.
  induction pre as [|p0 pre IH]; intros i fm page page' post Heq.
  - cbn [app process_pages]. now rewrite Heq.
  - cbn [app process_pages]. now apply IH.
Qed.

(** X16: a table row with fewer than two cells (a header row) is not
    there for the builder: with or without it, the mapping is the same,
    and the rows after it keep their ranks. *)
Theorem short_rows_ignored pre rows1 short rows2 post :
  (length short < 2)%nat ->
  download_frequency_lists (pre ++ Some (rows1 ++ short :: rows2) :: post) =
  download_frequency_lists (pre ++ Some (rows1 ++ rows2) :: post).
Proof.
  intros Hshort. unfold download_frequency_lists.
  apply process_pages_ext. intros i fm. unfold process_page.
  rewrite !fold_left_app. cbn [fold_left].
  now rewrite process_row_short by exact Hshort.
Qed.

Lemma short_rows_ignored_witness :
  download_frequency_lists
    [Some [[lit "header"]; [[0x7684%N]; [0x7684%N]]]] =
  download_frequency_lists [Some [[[0x7684%N]; [0x7684%N]]]].
Proof.
  apply (short_rows_ignored [] [] [lit "header"] [[[0x7684%N]; [0x7684%N]]] []).
  simpl. lia.
Defined.

(** ** Words of the frequency table *)

Lemma row_has_word w cells :
  row_has w cells = true -> w ≠ [] /\ Py.strip w = w.
Proof.
  unfold row_has, row_words.
  destruct cells as [|c0 [|c1 cells]]; try discriminate.
  destruct (_ || _); [discriminate|].
  intros [Hne [->| ->]]%bool_decide_eq_true;
    (split; [exact Hne|apply strip_by_idemp]).
Qed.

(** X17: every word the frequency mapping holds is non-empty and has no
    whitespace at its ends. *)
Theorem frequency_words_stripped pages w s :
  download_frequency_lists pages !! w = Some s ->
  w ≠ [] /\ Py.strip w = w.
Proof.
  unfold download_frequency_lists.
  rewrite process_pages_lookup, lookup_empty. intros Hs.
  destruct (pages_score_inv w pages 0 s Hs)
    as (i & j & rows & [[_ (cells & _ & Hhas)] _] & _).
  now apply row_has_word in Hhas.
Qed.

Lemma frequency_words_stripped_witness :
  [0x662F%N] ≠ [] /\ Py.strip [0x662F%N] = [0x662F%N].
Proof.
  apply (frequency_words_stripped sample_pages [0x662F%N] 9998).
  vm_compute. reflexivity.
Defined.

Lemma count_rows_take_mono rows : forall n m,
  (n <= m)%nat -> count_rows (take n rows) <= count_rows (take m rows).
Proof.
  induction rows as [|cells rows IH]; intros n m Hnm.
  - rewrite !take_nil. lia.
  - destruct n as [|n].
    + rewrite take_0. apply count_rows_nonneg.
    + destruct m as [|m]; [lia|]. simpl.
      pose proof (IH n m ltac:(lia)). lia.
Qed.

(** X18: when no page has more than 1000 counted rows, the score of a
    word is the best it could get: it is at least [11000 - r] for the rank
    [r] of every accepted row that carries the word. *)
Theorem score_is_best_rank pages w i j rows :
  Forall (fun page => from_option (fun rows => count_rows rows <= 1000)
                        True page) pages ->
  accepted_at pages w i j rows ->
  exists s,
    download_frequency_lists pages !! w = Some s /\
    11000 - (Z.of_nat i * 1000 + position_in_page rows j) <= s.
Proof.
  intros Hall Hacc. unfold download_frequency_lists.
  rewrite process_pages_lookup, lookup_empty.
  destruct (pages_score 0 w pages) as [s|] eqn:Hs;
    [|now destruct (pages_score_is_None w pages 0 Hs i j rows)].
  exists s. split; [reflexivity|].
  destruct (pages_score_inv w pages 0 s Hs)
    as (i0 & j0 & rows0 & [[Hp0 (cells0 & Hj0 & Hhas0)] Hfirst] & ->).
  pose proof (position_in_page_bounds rows0 j0 cells0 Hj0
                (row_has_counted _ _ Hhas0)) as Hpos0.
  destruct Hacc as [Hp (cells & Hj & Hhas)].
  pose proof (position_in_page_bounds rows j cells Hj
                (row_has_counted _ _ Hhas)) as Hpos.
  assert (Hrows0 : count_rows rows0 <= 1000).
  { rewrite Forall_forall in Hall.
    apply (Hall (Some rows0)). eapply list_elem_of_lookup_2, Hp0. }
  unfold score_of, rank_of.
  destruct (Hfirst i j rows) as [Hlt|[-> Hle]].
  - split; [exact Hp|eauto].
  - lia.
  - rewrite Hp in Hp0. injection Hp0 as ->.
    pose proof (count_rows_take_mono rows0 (S j0) (S j) ltac:(lia)) as Hm.
    unfold position_in_page in *. lia.
Qed.

Lemma score_is_best_rank_witness :
  exists s,
    download_frequency_lists sample_pages !! [0x7684%N] = Some s /\
    11000 - (Z.of_nat 1 * 1000
             + position_in_page
                 [ [[0x7684%N]; [0x7684%N]];
                   [lit " " ++ [0x662F%N]; [0x662F%N]] ] 0) <= s.
Proof.
  apply (score_is_best_rank sample_pages [0x7684%N] 1 0).
  - repeat constructor; vm_compute; discriminate.
  - split; [reflexivity|]. eexists. split; [reflexivity|].
    vm_compute. reflexivity.
Defined.

(** ** Tags *)

Section Tags.

Lemma sub_tags_skip text : forall k,
  sub_tags k text = sub_tags O (drop k text).
Proof.
  induction text as [|c text IH]; intros [|k]; try reflexivity.
  simpl sub_tags at 1. now rewrite IH.
Qed.

Lemma sub_tags_other c text :
  c ≠ c_lt -> sub_tags O (c :: text) = c :: sub_tags O text.
Proof.
  intros Hc. simpl. now destruct (N.eqb_spec c c_lt).
Qed.

Lemma sub_tags_tag body rest :
  tag_body body ->
  sub_tags O (c_lt :: body ++ c_gt :: rest) = sub_tags O rest.
Proof.
  intros [Hne Hgt]. cbn [sub_tags]. rewrite N.eqb_refl.
  rewrite cut_first by exact Hgt.
  destruct body as [|b body]; [contradiction|].
  rewrite sub_tags_skip. f_equal.
  change (S (length (b :: body))) with (length (b :: body) + 1)%nat at 1
    || replace (S (length (b :: body))) with (length (b :: body) + 1)%nat
         by lia.
  rewrite <- drop_drop, drop_app_length. reflexivity.
Qed.

Lemma sub_tags_no_close text : c_gt ∉ text -> sub_tags O text = text.
Proof.
  induction text as [|c text IH]; intros Hgt; [reflexivity|].
  assert (Htext : c_gt ∉ text) by (intros ?; apply Hgt; now right).
  cbn [sub_tags]. destruct (c =? c_lt)%N.
  - rewrite cut_absent by exact Htext. rewrite (IH Htext).
    now destruct text.
  - now rewrite IH.
Qed.

Lemma sub_tags_empty_tag text :
  sub_tags O (c_lt :: c_gt :: text) = c_lt :: c_gt :: sub_tags O text.
Proof. reflexivity. Qed.


Lemma no_close_tag_free s : c_gt ∉ s -> tag_free s.
Proof.
  induction s as [|c s IH]; intros Hgt; [constructor|].
  destruct (decide (c = c_lt)) as [->|Hc].
  - apply tag_free_open. intros ?. apply Hgt. now right.
  - apply tag_free_other; [exact Hc|]. apply IH.
    intros ?. apply Hgt. now right.
Qed.

Lemma tag_free_fixed s : tag_free s -> sub_tags O s = s.
Proof.
  induction 1 as [|c s Hc Hs IH|s Hs IH|s Hgt].
  - reflexivity.
  - now rewrite sub_tags_other, IH.
  - now rewrite sub_tags_empty_tag, IH.
  - apply sub_tags_no_close. intros [?|?]%elem_of_cons;
      [discriminate|contradiction].
Qed.

Lemma sub_tags_tag_free_le n : forall s,
  (length s <= n)%nat -> tag_free (sub_tags O s).
Proof.
  induction n as [|n IH]; intros s Hlen.
  - destruct s; [constructor|simpl in Hlen; lia].
  - destruct s as [|c s]; [constructor|]. simpl in Hlen.
    destruct (decide (c = c_lt)) as [->|Hc].
    + destruct (Py.cut c_gt s) as [h [t|]] eqn:Hcut.
      * destruct (cut_inv _ _ _ _ Hcut) as [-> Hh].
        destruct h as [|b h].
        -- cbn [app]. rewrite sub_tags_empty_tag. apply tag_free_empty, IH.
           simpl in Hlen. lia.
        -- rewrite sub_tags_tag by (split; [discriminate|exact Hh]).
           apply IH. rewrite length_app in Hlen. simpl in Hlen. lia.
      * assert (Hgt : c_gt ∉ s).
        { intros Hin. apply list_elem_of_split in Hin as (a & b & ->).
          clear -Hcut. revert h Hcut.
          induction a as [|x a IHa]; intros h Hcut; simpl in Hcut.
          - discriminate.
          - destruct (x =? c_gt)%N; [discriminate|].
            destruct (Py.cut c_gt (a ++ c_gt :: b)) as [h' [t'|]] eqn:Ha;
              [discriminate|]. now apply (IHa h'). }
        rewrite sub_tags_no_close.
        -- now apply tag_free_open.
        -- intros [?|?]%elem_of_cons; [discriminate|contradiction].
    + rewrite sub_tags_other by exact Hc.
      apply tag_free_other; [exact Hc|]. apply IH. lia.
Qed.

Lemma sub_tags_tag_free s : tag_free (sub_tags O s).
Proof. now apply (sub_tags_tag_free_le (length s)). Qed.

Lemma tag_free_prefix s : tag_free s -> forall a b, s = a ++ b -> tag_free a.
Proof.
  induction 1 as [|c s Hc Hs IH|s Hs IH|s Hgt]; intros a b Hab.
  - destruct a; [constructor|discriminate].
  - destruct a as [|x a]; [constructor|]. injection Hab as <- ->.
    apply tag_free_other; [exact Hc|]. now apply (IH a b).
  - destruct a as [|x [|y a]]; [constructor| |].
    + injection Hab as <- _. apply tag_free_open, not_elem_of_nil.
    + injection Hab as <- <- ->. apply tag_free_empty. now apply (IH a b).
  - destruct a as [|x a]; [constructor|]. injection Hab as <- ->.
    apply tag_free_open. intros ?. apply Hgt, elem_of_app. now left.
Qed.

Lemma tag_free_tail c s : tag_free (c :: s) -> tag_free s.
Proof.
  inversion 1 as [|? ? ? Hs|? Hs|? Hgt]; subst.
  - exact Hs.
  - apply tag_free_other; [discriminate|exact Hs].
  - now apply no_close_tag_free.
Qed.

Lemma tag_free_suffix a : forall b, tag_free (a ++ b) -> tag_free b.
Proof.
  induction a as [|x a IH]; intros b Hab; [exact Hab|].
  apply IH. eapply tag_free_tail, Hab.
Qed.

Lemma tag_free_strip s : tag_free s -> tag_free (Py.strip s).
Proof.
  intros Hs. destruct (strip_by_infix Py.isspace s) as (w1 & w2 & Heq & _).
  rewrite Heq in Hs. apply tag_free_suffix in Hs.
  now apply (tag_free_prefix _ Hs (Py.strip s) w2).
Qed.

Lemma tag_free_lt_inv s :
  tag_free (c_lt :: s) -> (exists s', s = c_gt :: s') \/ c_gt ∉ s.
Proof.
  intros Hfree. inversion Hfree; subst.
  - match goal with H : ?x ≠ ?x |- _ => now destruct H end.
  - left. eauto.
  - now right.
Qed.

Lemma tag_free_no_tag a body b :
  tag_body body -> ~ tag_free (a ++ tag body ++ b).
Proof.
  intros [Hne Hgt] Hfree. apply tag_free_suffix in Hfree.
  unfold tag in Hfree. cbn [app] in Hfree. rewrite <- app_assoc in Hfree.
  apply tag_free_lt_inv in Hfree as [[s' Heq]|Hno].
  - destruct body as [|x body]; [contradiction|].
    injection Heq as -> _. apply Hgt. left.
  - apply Hno, elem_of_app. right. left.
Qed.

End Tags.

(** X19: [strip_tags] leaves no tag behind: its result nowhere holds a
    [<], one or more characters other than [>], and a [>]; so applying it
    again changes nothing. *)
Theorem strip_tags_leaves_no_tag text :
  (forall a body b, tag_body body ->
     strip_tags text ≠ a ++ tag body ++ b) /\
  strip_tags (strip_tags text) = strip_tags text.
Proof.
  assert (Hfree : tag_free (strip_tags text))
    by apply tag_free_strip, sub_tags_tag_free.
  split.
  - intros a body b Hbody Heq. rewrite Heq in Hfree.
    now apply (tag_free_no_tag a body b Hbody).
  - unfold strip_tags at 1. rewrite (tag_free_fixed _ Hfree).
    apply strip_by_idemp.
Qed.



Lemma strip_tags_leaves_no_tag_witness :
  strip_tags (strip_tags (lit " <b>x<i>y</i></b>< ")) =
  strip_tags (lit " <b>x<i>y</i></b>< ").
Proof. exact (proj2 (strip_tags_leaves_no_tag (lit " <b>x<i>y</i></b>< "))). Defined.

(** ** The dictionary [main] builds *)

Lemma lookup_frequency_from frequency_map t s f :
  lookup_frequency frequency_map t s = Some f ->
  frequency_map !! t = Some f \/ frequency_map !! s = Some f.
Proof.
  unfold lookup_frequency, Py.or_.
  destruct (Py.truthy (frequency_map !! t)); auto.
Qed.

Lemma frequency_from_map lines frequency_map max_entries k r f :
  parse_cedict lines frequency_map max_entries !! k = Some r ->
  frequency r = Some f ->
  exists w, frequency_map !! w = Some f.
Proof.
  revert k r f. unfold parse_cedict.
  apply (parse_loop_preserves frequency_map max_entries
           (fun d => forall k r f, d !! k = Some r -> frequency r = Some f ->
                       exists w, frequency_map !! w = Some f)
           (fun _ => True)).
  - intros d c _ Hd k r f.
    destruct (decide (k = cand_traditional c)) as [->|Hk].
    + rewrite merge_candidate_key. intros [= <-].
      assert (Hnew : lookup_frequency frequency_map (cand_traditional c)
                       (cand_simplified c) = Some f ->
                     exists w, frequency_map !! w = Some f).
      { intros [?|?]%lookup_frequency_from; eauto. }
      destruct (d !! cand_traditional c) as [e|] eqn:He; [|exact Hnew].
      simpl. destruct (takes_frequency _ (frequency e)); [exact Hnew|].
      now apply (Hd (cand_traditional c) e).
    + rewrite merge_candidate_other by exact Hk. apply Hd.
  - intros; exact I.
  - intros k r f. now rewrite lookup_empty.
Qed.

(** X23: in the dictionary [main] builds from at most ten pages of at
    most 1000 counted rows each, a record's frequency is unset or lies
    between 1000 and 10999. *)
Theorem main_frequency_range pages lines k r f :
  regular_pages pages ->
  main_dictionary pages lines !! k = Some r ->
  frequency r = Some f ->
  1000 <= f <= 10999.
Proof.
  intros Hreg Hr Hf. unfold main_dictionary in Hr.
  destruct (frequency_from_map _ _ _ _ _ _ Hr Hf) as [w Hw].
  destruct (score_in_range pages w f Hw) as [Hle Hge].
  split; [now apply Hge|exact Hle].
Qed.

Lemma main_frequency_range_witness :
  exists r,
    main_dictionary sample_pages
      [[0x662F%N; 32; 0x662F%N; 32]%N ++ lit "[shi4] /to be/"]
      !! [0x662F%N] = Some r /\
    frequency r = Some 9998 /\ 1000 <= 9998 <= 10999.
Proof.
  destruct (main_dictionary sample_pages
              [[0x662F%N; 32; 0x662F%N; 32]%N ++ lit "[shi4] /to be/"]
              !! [0x662F%N]) as [r|] eqn:Hr;
    [|vm_compute in Hr; discriminate].
  assert (Hf : frequency r = Some 9998).
  { vm_compute in Hr. injection Hr as <-. reflexivity. }
  exists r. split; [reflexivity|]. split; [exact Hf|].
  refine (main_frequency_range sample_pages _ _ r 9998 _ Hr Hf).
  split; [simpl; lia|]. repeat constructor; vm_compute; discriminate.
Defined.

(** X24: in the dictionary [main] builds from such pages, a record whose
    traditional form is in the frequency mapping has that form's score as
    its frequency: the fall-through at score 0 never happens. *)
Theorem main_traditional_first pages lines k r v :
  regular_pages pages ->
  download_frequency_lists pages !! k = Some v ->
  main_dictionary pages lines !! k = Some r ->
  frequency r = Some v.
Proof.
  intros Hreg Hv Hr. unfold main_dictionary in Hr.
  destruct (score_in_range pages k v Hv) as [_ Hge].
  apply (scored_headword_frequency lines _ MAX_ENTRIES k v r Hv);
    [|exact Hr].
  specialize (Hge Hreg). lia.
Qed.

Lemma main_traditional_first_witness :
  exists r,
    main_dictionary sample_pages
      [[0x662F%N; 32; 0x7684%N; 32]%N ++ lit "[shi4] /to be/"]
      !! [0x662F%N] = Some r /\
    frequency r = Some 9998.
Proof.
  destruct (main_dictionary sample_pages
              [[0x662F%N; 32; 0x7684%N; 32]%N ++ lit "[shi4] /to be/"]
              !! [0x662F%N]) as [r|] eqn:Hr;
    [|vm_compute in Hr; discriminate].
  exists r. split; [reflexivity|].
  refine (main_traditional_first sample_pages _ [0x662F%N] r 9998 _ _ Hr).
  - split; [simpl; lia|]. repeat constructor; vm_compute; discriminate.
  - vm_compute. reflexivity.
Defined.

(** ** Witnesses for the layout lemmas *)

Lemma parse_line_cedict_witness :
  parse_line zhongguo1 =
  Some {| cand_traditional := [0x4E2D; 0x570B]%N;
          cand_simplified := [0x4E2D; 0x56FD]%N;
          cand_pinyin := lit "Zhong1 guo2";
          cand_definitions := [lit "China"; lit "Middle Kingdom"] |}.
Proof.
  refine (parse_line_cedict [0x4E2D; 0x570B]%N [0x4E2D; 0x56FD]%N
            (lit "Zhong1 guo2") [lit "China"; lit "Middle Kingdom"]
            _ eq_refl _ _ _).
  - split; [discriminate|]. repeat constructor; discriminate.
  - split; [discriminate|]. repeat constructor; discriminate.
  - intros Hin%list_elem_of_In. vm_compute in Hin.
    repeat (destruct Hin as [Hin|Hin]; [discriminate|]). exact Hin.
  - repeat constructor; try discriminate;
      intros Hin%list_elem_of_In; vm_compute in Hin;
      repeat (destruct Hin as [Hin|Hin]; [discriminate|]); exact Hin.
Defined.

Lemma parse_line_pinyin_witness :
  exists h p t,
    lit "A a [ ] /x/" = h ++ c_open :: p ++ c_close :: t /\
    (c_open ∉ h) /\ (c_close ∉ p) /\
    ([] : str) = Py.strip p /\
    (([] : str) = [] <-> Forall (fun x => Py.isspace x = true) p).
Proof.
  exact (parse_line_pinyin (lit "A a [ ] /x/")
           {| cand_traditional := lit "A"; cand_simplified := lit "a";
              cand_pinyin := []; cand_definitions := [lit "x"] |} eq_refl).
Defined.

(** ** Files read in parts, and files without entries *)

(** X25: when no cap stops the loop, reading a file in two parts, the
    second from the dictionary the first gave, is reading it whole. *)
Theorem parse_cedict_app lines1 lines2 frequency_map max_entries :
  (forall n, cap_reached max_entries n = false) ->
  parse_cedict (lines1 ++ lines2) frequency_map max_entries =
  parse_loop frequency_map max_entries lines2
    (parse_cedict lines1 frequency_map max_entries) 0.
Proof.
  intros Hcap. unfold parse_cedict.
  rewrite !(parse_loop_uncapped frequency_map max_entries) by exact Hcap.
  unfold accepted. now rewrite omap_app, fold_left_app.
Qed.

Lemma parse_cedict_app_witness :
  parse_cedict ([zhongguo1] ++ [zhongguo2]) ∅ None =
  parse_loop ∅ None [zhongguo2] (parse_cedict [zhongguo1] ∅ None) 0.
Proof.
  exact (parse_cedict_app [zhongguo1] [zhongguo2] ∅ None (fun _ => eq_refl)).
Defined.

(** X26: the mapping is empty exactly when no line of the file is
    accepted, whatever [max_entries] is: an empty file, or one of comments
    and malformed lines only, gives the empty mapping, and one accepted
    line is enough for a record, under any cap. *)
Theorem parse_cedict_empty_iff lines frequency_map max_entries :
  parse_cedict lines frequency_map max_entries = ∅ <->
  Forall (fun line => parse_line line = None) lines.
Proof.
  rewrite parse_cedict_entries_read.
  assert (Hacc : accepted lines = [] <->
                 Forall (fun line => parse_line line = None) lines).
  { unfold accepted. induction lines as [|line lines IH].
    - split; [constructor|reflexivity].
    - cbn [omap list_omap]. destruct (parse_line line) as [c|] eqn:Hline.
      + split; [discriminate|]. intros [Hnone _]%Forall_cons.
        rewrite Hline in Hnone. discriminate.
      + rewrite IH. split; [now constructor|now intros [_ ?]%Forall_cons]. }
  rewrite <- Hacc. split.
  - intros Hempty.
    destruct (accepted lines) as [|c cs] eqn:Hcs; [reflexivity|].
    assert (Hread : exists n, entries_read max_entries (length (c :: cs))
                              = S n).
    { unfold entries_read. simpl length.
      destruct max_entries as [m|]; [|eauto].
      destruct (m =? 0); [eauto|].
      exists (Nat.pred (Nat.min (Z.to_nat (Z.max 1 m)) (S (length cs)))).
      lia. }
    destruct Hread as [n Hn]. rewrite Hn in Hempty. cbn [take] in Hempty.
    apply (f_equal (fun d => d !! cand_traditional c)) in Hempty.
    rewrite fold_merge_lookup, lookup_empty in Hempty.
    unfold with_key in Hempty.
    rewrite filter_cons_True in Hempty by reflexivity. discriminate.
  - intros ->. now rewrite take_nil.
Qed.

Lemma parse_cedict_empty_iff_witness :
  parse_cedict [lit "# CC-CEDICT"; lit "no bracket"; []] ∅ (Some 5) = ∅.
Proof.
  apply (proj2 (parse_cedict_empty_iff
                  [lit "# CC-CEDICT"; lit "no bracket"; []] ∅ (Some 5))).
  repeat constructor.
Defined.
